(** * RESP codec and guarded I/O of icinga2's [RedisConnection]

    A shallow embedding of [lib/icingadb/redisconnection.hpp]:
    [ReadLine], [ReadRESP], [WriteRESP], the templates [ReadOne] and
    [WriteOne], and the value and exception classes they use.

    Modelling conventions.
    - A C++ [char] is an [ascii] (eight bits); [std::vector<char>],
      [std::string] and icinga's [String] are [list ascii], so that NUL
      bytes and CR/LF inside payloads are ordinary elements.
    - The read side of a stream is the finite list of bytes that arrive
      before the peer closes the connection.  [asio::async_read] with a
      [yield_context] either fills the whole buffer or throws
      [boost::system::system_error]; at the end of the list the error code
      is [asio::error::eof].
    - A C++ function is a function into [outcome]: it returns ([Ret]) or
      throws ([Throw]), and leaves the object it works on in a new state.
      [ReadRESP] is recursive through the array loop, so
      it is defined on a fuel argument and [OutOfFuel] marks an exhausted
      budget; section [Totality] shows the budget of [ReadRESP] is never
      exhausted.
    - [intmax_t] and [size_t] are 64 bits wide; numbers are printed and
      parsed in the classic locale.  Memory allocation
      ([reserve], [insert], [emplace_back]) always succeeds; capacities are
      not observable. *)

From Stdlib Require Import ZArith NArith List Ascii Bool Lia.
From Stdlib Require String.
Import String.StringSyntax.
Delimit Scope string_scope with string.
Import ListNotations.

Local Open Scope Z_scope.

(** ** Characters *)

Definition char := ascii.

Definition NUL : char := "000"%char.
Definition CR : char := "013"%char.
Definition LF : char := "010"%char.
Definition CRLF : list char := [CR; LF].

(** A [const char *] read as a C string: the bytes before the first NUL. *)
Fixpoint c_str (p : list char) : list char :=
  match p with
  | [] => []
  | c :: p' => if Ascii.eqb c NUL then [] else c :: c_str p'
  end.

(** ** Values ([base/value.hpp], [base/array.hpp], [RedisError]) *)

Definition String := list char.

Module RedisError.
Record t := make { m_Message : String }.
Definition GetMessage (e : t) : String := m_Message e.
End RedisError.

(** Modelled from the spec: [base/value.hpp] and [base/array.hpp] are not
    part of the sources at hand.  A [Value] is "one of null, string,
    integer (represented as double), array of Reply, error-object carrying
    a message"; an [Array] is the sequence of its elements, [Add] appends
    one element at the end and [Reserve] only changes the capacity. *)
Inductive Value :=
| Empty
| Number (d : Z)
| Str (s : String)
| Obj (o : Object)
with Object :=
| ObjArray (elems : list Value)
| ObjRedisError (e : RedisError.t).

Definition Array := list Value.
Definition Array_new : Array := [].
Definition Array_Reserve (arr : Array) (newSize : Z) : Array := arr.
Definition Array_Add (arr : Array) (v : Value) : Array := arr ++ [v].

(** [(double)i] for a 64-bit [i]: the nearest binary64 number, ties to
    even.  The result is an integer, and it is kept as that integer. *)
Definition double_of_intmax (i : Z) : Z :=
  let a := Z.abs i in
  if a <? 2 ^ 53 then i
  else
    let e := Z.log2 a - 52 in
    let q := Z.shiftr a e in
    let r := a - Z.shiftl q e in
    let half := Z.shiftl 1 (e - 1) in
    let q' := if (half <? r) || ((r =? half) && Z.odd q) then q + 1 else q in
    Z.sgn i * Z.shiftl q' e.

(** ** Exceptions *)

Inductive error_code := eof | broken_pipe.

Module BadRedisType.
Record t := mk { m_What : list char }.
(** [BadRedisType(char type) : m_What{type, 0}] *)
Definition make (type : char) : t := mk [type; NUL].
Definition what (e : t) : list char := c_str (m_What e).
End BadRedisType.

Module BadRedisInt.
Record t := mk { m_What : list char }.
(** [BadRedisInt(std::vector<char> intStr)]: the bytes, then
    [m_What.emplace_back(0)]. *)
Definition make (intStr : list char) : t := mk (intStr ++ [NUL]).
Definition what (e : t) : list char := c_str (m_What e).
End BadRedisInt.

(** The exceptions of the stream and of this header.  [std::bad_alloc]
    and [std::length_error], which a failed allocation would throw, have no
    constructor: allocation always succeeds here (see the conventions at
    the top), so nothing below says which exception a reply with a huge
    declared length ends in on a machine that cannot hold it. *)
Inductive exn :=
| system_error (ec : error_code)
| RedisDisconnected
| ExBadRedisType (e : BadRedisType.t)
| ExBadRedisInt (e : BadRedisInt.t).

(** The outcome of a call that works on a mutable object of type [S] (the
    stream, or the connection): it returns, or it throws, and either way the
    object is left in some state. *)
Inductive outcome (S A : Type) :=
| Ret (a : A) (s : S)
| Throw (e : exn) (s : S)
| OutOfFuel.

Arguments Ret {S A} a s.
Arguments Throw {S A} e s.
Arguments OutOfFuel {S A}.

Definition bind {S A B} (m : outcome S A) (k : A -> S -> outcome S B)
  : outcome S B :=
  match m with
  | Ret a s => k a s
  | Throw e s => Throw e s
  | OutOfFuel => OutOfFuel
  end.

Notation "'do' x , s <- m ; k" := (bind m (fun x s => k))
  (at level 10, x name, s name, m at level 100, k at level 200).

(** ** Reading bytes *)

(** [asio::async_read(stream, asio::mutable_buffer(p, n), yc)]: all [n]
    bytes, or [eof] once the bytes that were left are used up.  A buffer of
    size zero is filled at once. *)
Definition async_read (stream : list char) (n : Z)
  : outcome (list char) (list char) :=
  if n <=? Z.of_nat (length stream)
  then Ret (firstn (Z.to_nat n) stream) (skipn (Z.to_nat n) stream)
  else Throw (system_error eof) [].

(** The same call on a buffer of one [char], handing back that [char]. *)
Definition async_read_char (stream : list char) : outcome (list char) char :=
  match stream with
  | [] => Throw (system_error eof) []
  | c :: stream' => Ret c stream'
  end.

(** [ReadLine]: the loop reads one byte at a time into [next]; at the
    first CR it reads one more byte into [next] and returns the line.  The
    recursion is on the bytes still to arrive; [hint] is only a capacity. *)
Fixpoint ReadLine_loop (stream : list char) (line : list char)
  : outcome (list char) (list char) :=
  match stream with
  | [] => Throw (system_error eof) []
  | next :: stream' =>
      if Ascii.eqb next CR then
        match stream' with
        | [] => Throw (system_error eof) []
        | _ :: stream'' => Ret line stream''
        end
      else ReadLine_loop stream' (line ++ [next])
  end.

Definition ReadLine (stream : list char) (hint : Z)
  : outcome (list char) (list char) :=
  ReadLine_loop stream [].

(** ** [boost::lexical_cast<intmax_t>] and [std::ostream << size_t] *)

Definition is_digit (c : char) : bool :=
  let n := N_of_ascii c in ((48 <=? n) && (n <=? 57))%N.

Definition digit_value (c : char) : Z := Z.of_N (N_of_ascii c) - 48.

Definition digit_char (d : Z) : char := ascii_of_N (Z.to_N (48 + d)).

Definition uintmax_max : Z := 2 ^ 64 - 1.
Definition intmax_max : Z := 2 ^ 63 - 1.

Fixpoint digits_value (acc : Z) (s : list char) : option Z :=
  match s with
  | [] => Some acc
  | c :: s' => if is_digit c then digits_value (10 * acc + digit_value c) s'
               else None
  end.

(** Boost's [lcast_ret_unsigned<uintmax_t>::convert]: at least one
    character, decimal digits only (leading zeros allowed), and a value that
    fits the unsigned type. *)
Definition lcast_ret_unsigned (s : list char) : option Z :=
  match s with
  | [] => None
  | _ =>
      match digits_value 0 s with
      | Some v => if v <=? uintmax_max then Some v else None
      | None => None
      end
  end.

(** Boost's [shr_signed<intmax_t>], what [lexical_cast<intmax_t>] runs on
    the characters of the [string_view]: an optional sign, then
    [lcast_ret_unsigned], then the range check against [2^63] (with a
    minus) or [2^63 - 1].  [None] is [bad_lexical_cast]. *)
Definition lexical_cast_intmax (s : list char) : option Z :=
  match s with
  | [] => None
  | c :: s' =>
      let has_minus := Ascii.eqb c "-" in
      let start := if has_minus || Ascii.eqb c "+" then s' else s in
      match lcast_ret_unsigned start with
      | None => None
      | Some out_tmp =>
          if has_minus
          then if out_tmp <=? 2 ^ 63 then Some (0 - out_tmp) else None
          else if out_tmp <=? intmax_max then Some out_tmp else None
      end
  end.

(** [std::ostream << size_t] with the default flags and the classic
    locale: the decimal digits, produced from the least significant one by
    [do { *--buf = '0' + v % 10; v /= 10; } while (v != 0)]. *)
Fixpoint int_to_char (fuel : nat) (v : Z) (buf : list char) : list char :=
  let buf' := digit_char (v mod 10) :: buf in
  match fuel with
  | O => buf'
  | S fuel' => if v / 10 =? 0 then buf' else int_to_char fuel' (v / 10) buf'
  end.

Definition ostream_size_t (v : Z) : list char :=
  int_to_char (Z.to_nat (Z.log2 v)) v [].

(** ** [ReadRESP] *)

Definition parse_int (buf : list char) (stream : list char)
  : outcome (list char) Z :=
  match lexical_cast_intmax buf with
  | Some i => Ret i stream
  | None => Throw (ExBadRedisInt (BadRedisInt.make buf)) stream
  end.

(** The body of [ReadRESP]: one type byte, then the [switch].  [loop i
    stream arr] stands for [for (; i; --i) arr->Add(ReadRESP(stream, yc))],
    the only place where the function calls itself. *)
Definition ReadRESP_body
    (loop : Z -> list char -> Array -> outcome (list char) Array)
    (stream : list char) : outcome (list char) Value :=
  do type, stream <- async_read_char stream;
  if Ascii.eqb type "+" then
    do buf, stream <- ReadLine stream 0;
    Ret (Str buf) stream
  else if Ascii.eqb type "-" then
    do buf, stream <- ReadLine stream 0;
    Ret (Obj (ObjRedisError (RedisError.make buf))) stream
  else if Ascii.eqb type ":" then
    do buf, stream <- ReadLine stream 21;
    do i, stream <- parse_int buf stream;
    Ret (Number (double_of_intmax i)) stream
  else if Ascii.eqb type "$" then
    do buf, stream <- ReadLine stream 21;
    do i, stream <- parse_int buf stream;
    if i <? 0 then Ret Empty stream
    else
      do buf, stream <- async_read stream i;
      do crlf, stream <- async_read stream 2;
      Ret (Str buf) stream
  else if Ascii.eqb type "*" then
    do buf, stream <- ReadLine stream 21;
    do i, stream <- parse_int buf stream;
    let arr := Array_new in
    let i := if i <? 0 then 0 else i in
    let arr := Array_Reserve arr i in
    do arr, stream <- loop i stream arr;
    Ret (Obj (ObjArray arr)) stream
  else Throw (ExBadRedisType (BadRedisType.make type)) stream.

(** The recursion of [ReadRESP] through its loop.  One unit of fuel pays
    for one call of [ReadRESP] or one turn of the loop. *)
Fixpoint ReadRESP_fuel (fuel : nat) (stream : list char) {struct fuel}
  : outcome (list char) Value :=
  match fuel with
  | O => OutOfFuel
  | S fuel' => ReadRESP_body (ReadRESP_elements fuel') stream
  end
with ReadRESP_elements (fuel : nat) (i : Z) (stream : list char) (arr : Array)
  {struct fuel} : outcome (list char) Array :=
  if i =? 0 then Ret arr stream
  else
    match fuel with
    | O => OutOfFuel
    | S fuel' =>
        do v, stream <- ReadRESP_fuel fuel' stream;
        ReadRESP_elements fuel' (i - 1) stream (Array_Add arr v)
    end.

Definition ReadRESP_budget (stream : list char) : nat :=
  2 * length stream + 1.

Definition ReadRESP (stream : list char) : outcome (list char) Value :=
  ReadRESP_fuel (ReadRESP_budget stream) stream.

(** The array loop of [ReadRESP], on its own budget. *)
Definition ReadRESP_loop (i : Z) (stream : list char) (arr : Array)
  : outcome (list char) Array :=
  ReadRESP_elements (S (ReadRESP_budget stream)) i stream arr.

(** ** [WriteRESP] *)

Definition Query := list String.
Definition Queries := list Query.

Definition String_GetLength (s : String) : Z := Z.of_nat (length s).

(** The bytes [WriteRESP] puts into [writeBuffer] through [msg]: every
    [<<] appends to what is already there. *)
Definition WriteRESP_buffer (query : Query) : list char :=
  let msg := [] in
  let msg := msg ++ ["*"%char] ++ ostream_size_t (Z.of_nat (length query))
                 ++ [CR; LF] in
  fold_left
    (fun msg arg =>
       msg ++ ["$"%char] ++ ostream_size_t (String_GetLength arg) ++ [CR; LF]
           ++ arg ++ [CR; LF])
    query msg.

(** The request format in the words of the specification: [*N\r\n], then
    for each argument [$L\r\n<arg>\r\n]. *)
Definition resp_bulk (arg : String) : list char :=
  "$"%char :: ostream_size_t (Z.of_nat (length arg)) ++ CRLF ++ arg ++ CRLF.

Definition resp_request (query : Query) : list char :=
  "*"%char :: ostream_size_t (Z.of_nat (length query)) ++ CRLF
           ++ concat (map resp_bulk query).

(** ** Streams and the connection object *)

(** A [boost::asio::buffered_stream] over a socket: the bytes still to be
    read, the bytes written but not flushed, the bytes sent to the peer, and
    whether the peer still takes data. *)
Record AsyncStream := {
  incoming : list char;
  writeBuf : list char;
  sent : list char;
  peerGone : bool
}.

Definition async_write (strm : AsyncStream) (data : list char)
  : outcome AsyncStream unit :=
  if peerGone strm then Throw (system_error broken_pipe) strm
  else Ret tt {| incoming := incoming strm;
                 writeBuf := writeBuf strm ++ data;
                 sent := sent strm;
                 peerGone := peerGone strm |}.

Definition async_flush (strm : AsyncStream) : outcome AsyncStream unit :=
  if peerGone strm then Throw (system_error broken_pipe) strm
  else Ret tt {| incoming := incoming strm;
                 writeBuf := [];
                 sent := sent strm ++ writeBuf strm;
                 peerGone := peerGone strm |}.

Definition WriteRESP (strm : AsyncStream) (query : Query)
  : outcome AsyncStream unit :=
  async_write strm (WriteRESP_buffer query).

Inductive QueryPriority :=
| Heartbeat | Config | State | History | CheckResult | SyncConnection.

Inductive ResponseAction := Ignore | Deliver | DeliverBulk.

Record FutureResponseAction := {
  Amount : Z;
  Action : ResponseAction
}.

(** A [std::promise] and a [std::function] are known by an identifier. *)
Definition promise := nat.
Definition callback := nat.

Record WriteQueueItem := {
  FireAndForgetQuery : option Query;
  FireAndForgetQueries : option Queries;
  GetResultOfQuery : option (Query * promise);
  GetResultsOfQueries : option (Queries * promise);
  Callback : option callback
}.

Record Queues := {
  Writes : list (QueryPriority * list WriteQueueItem);
  ReplyPromises : list promise;
  RepliesPromises : list promise;
  FutureResponseActions : list FutureResponseAction
}.

Inductive coroutine := Connect.

(** What [ReadOne] and [WriteOne] can touch: the connection's flags, queues
    and suppression set, the stream pointer they get by reference
    ([m_TcpConn] or [m_UnixConn]; [None] is [nullptr]), and the coroutines
    spawned on [m_Strand]. *)
Record RedisConnection := {
  m_Connecting : bool;
  m_Connected : bool;
  m_Started : bool;
  m_Queues : Queues;
  m_SuppressedQueryKinds : list QueryPriority;
  stream : option AsyncStream;
  spawned : list coroutine
}.

Definition set_stream (this : RedisConnection) (p : option AsyncStream)
  : RedisConnection :=
  {| m_Connecting := m_Connecting this; m_Connected := m_Connected this;
     m_Started := m_Started this; m_Queues := m_Queues this;
     m_SuppressedQueryKinds := m_SuppressedQueryKinds this;
     stream := p; spawned := spawned this |}.

Definition set_Connecting (this : RedisConnection) (b : bool)
  : RedisConnection :=
  {| m_Connecting := b; m_Connected := m_Connected this;
     m_Started := m_Started this; m_Queues := m_Queues this;
     m_SuppressedQueryKinds := m_SuppressedQueryKinds this;
     stream := stream this; spawned := spawned this |}.

Definition set_Connected (this : RedisConnection) (b : bool)
  : RedisConnection :=
  {| m_Connecting := m_Connecting this; m_Connected := b;
     m_Started := m_Started this; m_Queues := m_Queues this;
     m_SuppressedQueryKinds := m_SuppressedQueryKinds this;
     stream := stream this; spawned := spawned this |}.

Definition SpawnCoroutine (this : RedisConnection) (c : coroutine)
  : RedisConnection :=
  {| m_Connecting := m_Connecting this; m_Connected := m_Connected this;
     m_Started := m_Started this; m_Queues := m_Queues this;
     m_SuppressedQueryKinds := m_SuppressedQueryKinds this;
     stream := stream this; spawned := spawned this ++ [c] |}.

(** [m_Connecting.exchange(b)]: the old value, and the flag set to [b]. *)
Definition Connecting_exchange (this : RedisConnection) (b : bool)
  : bool * RedisConnection :=
  (m_Connecting this, set_Connecting this b).

(** The [catch (...)] block shared by [ReadOne] and [WriteOne], before it
    rethrows. *)
Definition on_exception (this : RedisConnection) : RedisConnection :=
  let (was, this) := Connecting_exchange this false in
  if was then
    let this := set_Connected this false in
    let this := set_stream this None in
    let (was, this) := Connecting_exchange this true in
    if negb was then SpawnCoroutine this Connect else this
  else this.

(** [ReadOne(stream, yc)].  The local copy [strm] and [stream] point to one
    stream object, so what [ReadRESP] consumed is gone from both. *)
Definition ReadOne (this : RedisConnection)
  : outcome RedisConnection Value :=
  match stream this with
  | None => Throw RedisDisconnected this
  | Some strm =>
      let advance rest :=
        set_stream this (Some {| incoming := rest; writeBuf := writeBuf strm;
                                 sent := sent strm;
                                 peerGone := peerGone strm |}) in
      match ReadRESP (incoming strm) with
      | Ret v rest => Ret v (advance rest)
      | Throw e rest => Throw e (on_exception (advance rest))
      | OutOfFuel => OutOfFuel
      end
  end.

(** [WriteOne(stream, query, yc)]: [WriteRESP], then [async_flush]. *)
Definition WriteOne (this : RedisConnection) (query : Query)
  : outcome RedisConnection unit :=
  match stream this with
  | None => Throw RedisDisconnected this
  | Some strm =>
      match (do _u, strm <- WriteRESP strm query; async_flush strm) with
      | Ret u strm' => Ret u (set_stream this (Some strm'))
      | Throw e strm' => Throw e (on_exception (set_stream this (Some strm')))
      | OutOfFuel => OutOfFuel
      end
  end.

(** [decodes stream vs rest]: calling [ReadRESP] again and again on
    [stream] returns the values [vs], one after the other, and leaves
    [rest]. *)
Inductive decodes : list char -> list Value -> list char -> Prop :=
| decodes_nil stream : decodes stream [] stream
| decodes_cons stream v stream' vs rest :
    ReadRESP stream = Ret v stream' ->
    decodes stream' vs rest ->
    decodes stream (v :: vs) rest.

(** The five type bytes of the [switch] in [ReadRESP]. *)
Definition known_type (type : char) : bool :=
  Ascii.eqb type "+" || Ascii.eqb type "-" || Ascii.eqb type ":"
  || Ascii.eqb type "$" || Ascii.eqb type "*".

(** The type bytes whose line is parsed as an integer. *)
Definition int_header (type : char) : bool :=
  Ascii.eqb type ":" || Ascii.eqb type "$" || Ascii.eqb type "*".

(** ** Vocabulary for the properties of the decoder *)

(** A reader is framed when a call that returns has used up a prefix of
    the stream and would return the same value whatever followed that
    prefix. *)
Definition framed {A} (f : list char -> outcome (list char) A) : Prop :=
  forall s a rest,
    f s = Ret a rest ->
    exists c, s = c ++ rest /\ forall t, f (c ++ t) = Ret a t.

(** The failures of [ReadRESP] when every allocation succeeds: the
    stream ends, the type byte is unknown, or a header line is not an
    integer. *)
Definition ReadRESP_failure (e : exn) (rest : list char) : Prop :=
  (e = system_error eof /\ rest = [])
  \/ (exists type, known_type type = false
                   /\ e = ExBadRedisType (BadRedisType.make type))
  \/ (exists buf, lexical_cast_intmax buf = None
                  /\ e = ExBadRedisInt (BadRedisInt.make buf)).

Definition throws_only {A} (f : list char -> outcome (list char) A) : Prop :=
  forall s e rest, f s = Throw e rest -> ReadRESP_failure e rest.

(** The stream object with its unread bytes replaced. *)
Definition with_incoming (strm : AsyncStream) (rest : list char)
  : AsyncStream :=
  {| incoming := rest; writeBuf := writeBuf strm; sent := sent strm;
     peerGone := peerGone strm |}.

(** [ReadOne_run this vs this']: calls of [ReadOne], each on the connection
    the one before left, return the values [vs] in that order. *)
Inductive ReadOne_run : RedisConnection -> list Value -> RedisConnection
                        -> Prop :=
| ReadOne_run_nil this : ReadOne_run this [] this
| ReadOne_run_cons this v this' vs this'' :
    ReadOne this = Ret v this' ->
    ReadOne_run this' vs this'' ->
    ReadOne_run this (v :: vs) this''.

(** A reader has stable failures when a failure other than the end of
    the stream does not depend on the bytes that follow: on a longer stream
    it is the same failure at the same place. *)
Definition stable_failure {A} (f : list char -> outcome (list char) A)
  : Prop :=
  forall s e rest,
    f s = Throw e rest -> e <> system_error eof ->
    forall t, f (s ++ t) = Throw e (rest ++ t).

(** The connection a call leaves behind, whether it returned or threw. *)
Definition final_state {A} (o : outcome RedisConnection A)
  : option RedisConnection :=
  match o with
  | Ret _ this => Some this
  | Throw _ this => Some this
  | OutOfFuel => None
  end.

(** A query whose sizes fit [intmax_t], as the sizes of a [std::vector]
    and of a [std::string] do. *)
Definition Query_fits (query : Query) : Prop :=
  Z.of_nat (length query) <= intmax_max
  /\ Forall (fun arg => Z.of_nat (length arg) <= intmax_max) query.

(** ** Sample inputs *)

Definition bytes (s : String.string) : list char :=
  String.list_ascii_of_string s.

Arguments bytes s%_string.

Example ReadRESP_simple_string :
  ReadRESP (bytes "+PONG" ++ CRLF) = Ret (Str (bytes "PONG")) [].
Proof. reflexivity. Qed.

Example ReadRESP_nested_array :
  ReadRESP (bytes "*2" ++ CRLF ++ bytes "*1" ++ CRLF ++ bytes ":7" ++ CRLF
              ++ bytes "$2" ++ CRLF ++ bytes "ab" ++ CRLF ++ bytes "rest")
  = Ret (Obj (ObjArray [Obj (ObjArray [Number 7]); Str (bytes "ab")]))
        (bytes "rest").
Proof. reflexivity. Qed.

Example ReadRESP_huge_count :
  ReadRESP (bytes "*9223372036854775807" ++ CRLF)
  = Throw (system_error eof) [].
Proof. reflexivity. Qed.

Example ReadRESP_integer_as_double :
  ReadRESP (bytes ":9007199254740993" ++ CRLF) = Ret (Number (2 ^ 53)) []
  /\ ReadRESP (bytes ":-9223372036854775808" ++ CRLF)
     = Ret (Number (- 2 ^ 63)) []
  /\ ReadRESP (bytes ":9223372036854775808" ++ CRLF)
     = Throw (ExBadRedisInt (BadRedisInt.make (bytes "9223372036854775808")))
             [].
Proof. repeat split. Qed.

Example ReadOne_reply :
  let strm := {| incoming := bytes "+OK" ++ CRLF ++ bytes ":1";
                 writeBuf := []; sent := []; peerGone := false |} in
  let this := {| m_Connecting := true; m_Connected := true; m_Started := true;
                 m_Queues := {| Writes := []; ReplyPromises := [];
                                RepliesPromises := [];
                                FutureResponseActions := [] |};
                 m_SuppressedQueryKinds := [];
                 stream := Some strm; spawned := [] |} in
  ReadOne this
  = Ret (Str (bytes "OK"))
        (set_stream this
           (Some {| incoming := bytes ":1"; writeBuf := []; sent := [];
                    peerGone := false |})).
Proof. reflexivity. Qed.

Example ReadOne_protocol_error_reconnects :
  let strm := {| incoming := bytes "?"; writeBuf := []; sent := [];
                 peerGone := false |} in
  let this := {| m_Connecting := true; m_Connected := true; m_Started := true;
                 m_Queues := {| Writes := []; ReplyPromises := [];
                                RepliesPromises := [];
                                FutureResponseActions := [] |};
                 m_SuppressedQueryKinds := [];
                 stream := Some strm; spawned := [] |} in
  ReadOne this
  = Throw (ExBadRedisType (BadRedisType.make "?"%char))
          {| m_Connecting := true; m_Connected := false; m_Started := true;
             m_Queues := m_Queues this;
             m_SuppressedQueryKinds := [];
             stream := None; spawned := [Connect] |}.
Proof. reflexivity. Qed.

Example WriteOne_flushes :
  let strm := {| incoming := []; writeBuf := []; sent := bytes "x";
                 peerGone := false |} in
  let this := {| m_Connecting := true; m_Connected := true; m_Started := true;
                 m_Queues := {| Writes := []; ReplyPromises := [];
                                RepliesPromises := [];
                                FutureResponseActions := [] |};
                 m_SuppressedQueryKinds := [];
                 stream := Some strm; spawned := [] |} in
  WriteOne this [bytes "PING"]
  = Ret tt
        (set_stream this
           (Some {| incoming := []; writeBuf := [];
                    sent := bytes "x*1" ++ CRLF ++ bytes "$4" ++ CRLF
                              ++ bytes "PING" ++ CRLF;
                    peerGone := false |})).
Proof. reflexivity. Qed.

Example WriteRESP_buffer_ping :
  WriteRESP_buffer [bytes "GET"; bytes "k"]
  = bytes "*2" ++ CRLF ++ bytes "$3" ++ CRLF ++ bytes "GET" ++ CRLF
      ++ bytes "$1" ++ CRLF ++ bytes "k" ++ CRLF.
Proof. reflexivity. Qed.

(** ** [ReadLine] *)

Section ReadLine_facts.

Lemma ReadLine_loop_Ret_inv stream : forall line buf rest,
  ReadLine_loop stream line = Ret buf rest ->
  exists l next,
    stream = l ++ CR :: next :: rest /\ buf = line ++ l /\ ~ In CR l.
Proof.
  induction stream as [|c stream IH]; intros line buf rest H; simpl in H.
  - discriminate.
  - destruct (Ascii.eqb_spec c CR) as [->|Hc].
    + destruct stream as [|next stream'']; [discriminate|].
      injection H as <- <-.
      exists [], next. rewrite app_nil_r. auto.
    + apply IH in H as (l & next & -> & -> & Hl).
      exists (c :: l), next. rewrite <- app_assoc. simpl.
      repeat split; auto. intros [E|E]; [congruence|auto].
Qed.

Lemma ReadLine_loop_Ret l : forall line next rest,
  ~ In CR l ->
  ReadLine_loop (l ++ CR :: next :: rest) line = Ret (line ++ l) rest.
Proof.
  induction l as [|c l IH]; intros line next rest Hl; simpl.
  - now rewrite app_nil_r.
  - destruct (Ascii.eqb_spec c CR) as [->|Hc].
    + exfalso. apply Hl. now left.
    + rewrite IH by (intros E; apply Hl; now right).
      now rewrite <- app_assoc.
Qed.

Lemma ReadLine_loop_Throw_inv stream : forall line e rest,
  ReadLine_loop stream line = Throw e rest ->
  e = system_error eof /\ rest = [].
Proof.
  induction stream as [|c stream IH]; intros line e rest H; simpl in H.
  - now injection H as <- <-.
  - destruct (Ascii.eqb c CR).
    + destruct stream; [now injection H as <- <-|discriminate].
    + eauto.
Qed.

Lemma ReadLine_loop_fuel stream : forall line,
  ReadLine_loop stream line <> OutOfFuel.
Proof.
  induction stream as [|c stream IH]; intros line; simpl; [discriminate|].
  destruct (Ascii.eqb c CR); [destruct stream; discriminate|apply IH].
Qed.

Lemma ReadLine_Ret_length stream hint buf rest :
  ReadLine stream hint = Ret buf rest ->
  (length buf + 2 + length rest = length stream)%nat.
Proof.
  intros H. apply ReadLine_loop_Ret_inv in H as (l & next & -> & -> & _).
  simpl. rewrite length_app. simpl. lia.
Qed.

End ReadLine_facts.

(** ** Termination of [ReadRESP] *)

Section Totality.

Ltac case_type type :=
  destruct (Ascii.eqb type "+"); [|
  destruct (Ascii.eqb type "-"); [|
  destruct (Ascii.eqb type ":"); [|
  destruct (Ascii.eqb type "$"); [|
  destruct (Ascii.eqb type "*")]]]].

Ltac case_line stream hint :=
  let buf := fresh "buf" in
  let rest := fresh "rest" in
  let E := fresh "Eline" in
  destruct (ReadLine stream hint) as [buf rest| |] eqn:E; simpl;
  [apply ReadLine_Ret_length in E| |
   exfalso; exact (ReadLine_loop_fuel _ _ E)].

Lemma async_read_Ret_length stream n buf rest :
  async_read stream n = Ret buf rest ->
  (length rest <= length stream)%nat.
Proof.
  unfold async_read. destruct (n <=? _); [|discriminate].
  intros H. injection H as <- <-. rewrite length_skipn. lia.
Qed.

Lemma parse_int_Ret buf stream i rest :
  parse_int buf stream = Ret i rest ->
  lexical_cast_intmax buf = Some i /\ rest = stream.
Proof.
  unfold parse_int. destruct (lexical_cast_intmax buf); [|discriminate].
  intros H. now injection H as <- <-.
Qed.

(** The loop is only ever run on what is left after the type byte and
    the header line. *)
Lemma ReadRESP_body_ext loop1 loop2 stream :
  (forall i s arr, (length s < length stream)%nat ->
                   loop1 i s arr = loop2 i s arr) ->
  ReadRESP_body loop1 stream = ReadRESP_body loop2 stream.
Proof.
  intros Hloop. unfold ReadRESP_body.
  destruct stream as [|type stream]; simpl; [reflexivity|].
  case_type type; try reflexivity.
  case_line stream 21; try reflexivity.
  unfold parse_int. destruct (lexical_cast_intmax buf); simpl; [|reflexivity].
  rewrite Hloop by (simpl; lia). reflexivity.
Qed.

Lemma ReadRESP_body_consumes loop stream v rest :
  (forall i s arr arr' rest',
      loop i s arr = Ret arr' rest' -> (length rest' <= length s)%nat) ->
  ReadRESP_body loop stream = Ret v rest ->
  (length rest < length stream)%nat.
Proof.
  intros Hloop. unfold ReadRESP_body.
  destruct stream as [|type stream]; simpl; [discriminate|].
  case_type type; try discriminate.
  - case_line stream 0; [|discriminate]. intros H. injection H as _ <-. lia.
  - case_line stream 0; [|discriminate]. intros H. injection H as _ <-. lia.
  - case_line stream 21; [|discriminate].
    unfold parse_int. destruct (lexical_cast_intmax buf); simpl;
      [|discriminate].
    intros H. injection H as _ <-. lia.
  - case_line stream 21; [|discriminate].
    unfold parse_int. destruct (lexical_cast_intmax buf) as [i|]; simpl;
      [|discriminate].
    destruct (i <? 0); [intros H; injection H as _ <-; lia|].
    destruct (async_read rest0 i) as [p r1| |] eqn:E1; simpl;
      try discriminate.
    destruct (async_read r1 2) as [q r2| |] eqn:E2; simpl; try discriminate.
    apply async_read_Ret_length in E1, E2.
    intros H. injection H as _ <-. lia.
  - case_line stream 21; [|discriminate].
    unfold parse_int. destruct (lexical_cast_intmax buf) as [i|]; simpl;
      [|discriminate].
    destruct (loop _ rest0 _) as [arr r1| |] eqn:E1; simpl; try discriminate.
    apply Hloop in E1. intros H. injection H as _ <-. lia.
Qed.

Lemma ReadRESP_body_fuel loop stream :
  (forall i s arr, (length s < length stream)%nat ->
                   loop i s arr <> OutOfFuel) ->
  ReadRESP_body loop stream <> OutOfFuel.
Proof.
  intros Hloop. unfold ReadRESP_body.
  destruct stream as [|type stream]; simpl; [discriminate|].
  case_type type; try discriminate.
  - case_line stream 0; discriminate.
  - case_line stream 0; discriminate.
  - case_line stream 21; [|discriminate].
    unfold parse_int. destruct (lexical_cast_intmax buf); discriminate.
  - case_line stream 21; [|discriminate].
    unfold parse_int. destruct (lexical_cast_intmax buf) as [i|]; simpl;
      [|discriminate].
    destruct (i <? 0); [discriminate|].
    unfold async_read at 1. destruct (i <=? _); simpl; [|discriminate].
    unfold async_read. destruct (2 <=? _); discriminate.
  - case_line stream 21; [|discriminate].
    unfold parse_int. destruct (lexical_cast_intmax buf) as [i|]; simpl;
      [|discriminate].
    destruct (loop _ rest _) eqn:E1; simpl; try discriminate.
    exfalso. revert E1. apply Hloop. simpl. lia.
Qed.

Lemma ReadRESP_fuel_consumes fuel :
  (forall stream v rest,
      ReadRESP_fuel fuel stream = Ret v rest ->
      (length rest < length stream)%nat) /\
  (forall i stream arr arr' rest,
      ReadRESP_elements fuel i stream arr = Ret arr' rest ->
      (length rest <= length stream)%nat).
Proof.
  induction fuel as [|fuel [IHr IHe]]; split.
  - discriminate.
  - intros i stream arr arr' rest. simpl.
    destruct (i =? 0); [|discriminate].
    intros H. injection H as _ <-. lia.
  - intros stream v rest. simpl. apply ReadRESP_body_consumes. exact IHe.
  - intros i stream arr arr' rest. simpl.
    destruct (i =? 0); [intros H; injection H as _ <-; lia|].
    destruct (ReadRESP_fuel fuel stream) as [v r1| |] eqn:E; simpl;
      try discriminate.
    intros H. apply IHr in E. apply IHe in H. lia.
Qed.

Lemma ReadRESP_fuel_enough fuel :
  (forall stream,
      (2 * length stream + 1 <= fuel)%nat ->
      ReadRESP_fuel fuel stream <> OutOfFuel) /\
  (forall i stream arr,
      (2 * length stream + 2 <= fuel)%nat ->
      ReadRESP_elements fuel i stream arr <> OutOfFuel).
Proof.
  induction fuel as [|fuel [IHr IHe]]; split.
  - intros stream H. lia.
  - intros i stream arr H. lia.
  - intros stream H. simpl. apply ReadRESP_body_fuel.
    intros i s arr Hs. apply IHe. lia.
  - intros i stream arr H. simpl.
    destruct (i =? 0); [discriminate|].
    destruct (ReadRESP_fuel fuel stream) as [v r1| |] eqn:E; simpl.
    + apply IHe. apply (proj1 (ReadRESP_fuel_consumes fuel)) in E. lia.
    + discriminate.
    + exfalso. revert E. apply IHr. lia.
Qed.

Lemma ReadRESP_fuel_mono fuel :
  (forall stream fuel',
      (2 * length stream + 1 <= fuel)%nat -> (fuel <= fuel')%nat ->
      ReadRESP_fuel fuel' stream = ReadRESP_fuel fuel stream) /\
  (forall i stream arr fuel',
      (2 * length stream + 2 <= fuel)%nat -> (fuel <= fuel')%nat ->
      ReadRESP_elements fuel' i stream arr
      = ReadRESP_elements fuel i stream arr).
Proof.
  induction fuel as [|fuel [IHr IHe]]; split.
  - intros stream fuel' H. lia.
  - intros i stream arr fuel' H. lia.
  - intros stream fuel' H Hle.
    destruct fuel' as [|fuel']; [lia|]. simpl.
    apply ReadRESP_body_ext. intros i s arr Hs. apply IHe; lia.
  - intros i stream arr fuel' H Hle.
    destruct fuel' as [|fuel']; [lia|]. simpl.
    destruct (i =? 0); [reflexivity|].
    rewrite IHr by lia.
    destruct (ReadRESP_fuel fuel stream) as [v r1| |] eqn:E; simpl;
      try reflexivity.
    apply IHe; [|lia].
    apply (proj1 (ReadRESP_fuel_consumes fuel)) in E. lia.
Qed.

End Totality.

(** ** Fuel-free equations *)

Section Unfolding.

Lemma ReadRESP_fuel_ge stream fuel :
  (ReadRESP_budget stream <= fuel)%nat ->
  ReadRESP_fuel fuel stream = ReadRESP stream.
Proof.
  intros H. unfold ReadRESP.
  apply (proj1 (ReadRESP_fuel_mono (ReadRESP_budget stream)));
    unfold ReadRESP_budget in *; lia.
Qed.

Lemma ReadRESP_elements_ge i stream arr fuel :
  (S (ReadRESP_budget stream) <= fuel)%nat ->
  ReadRESP_elements fuel i stream arr = ReadRESP_loop i stream arr.
Proof.
  intros H. unfold ReadRESP_loop.
  apply (proj2 (ReadRESP_fuel_mono (S (ReadRESP_budget stream))));
    unfold ReadRESP_budget in *; lia.
Qed.

Lemma ReadRESP_Ret_length stream v rest :
  ReadRESP stream = Ret v rest -> (length rest < length stream)%nat.
Proof. apply (proj1 (ReadRESP_fuel_consumes _)). Qed.

Lemma ReadRESP_unfold stream :
  ReadRESP stream = ReadRESP_body ReadRESP_loop stream.
Proof.
  unfold ReadRESP, ReadRESP_budget.
  replace (2 * length stream + 1)%nat with (S (2 * length stream)) by lia.
  simpl ReadRESP_fuel. apply ReadRESP_body_ext. intros i s arr Hs.
  apply ReadRESP_elements_ge. unfold ReadRESP_budget. lia.
Qed.

Lemma ReadRESP_loop_unfold i stream arr :
  ReadRESP_loop i stream arr
  = if i =? 0 then Ret arr stream
    else do v, stream' <- ReadRESP stream;
         ReadRESP_loop (i - 1) stream' (Array_Add arr v).
Proof.
  unfold ReadRESP_loop at 1. simpl ReadRESP_elements.
  destruct (i =? 0); [reflexivity|].
  fold (ReadRESP stream).
  destruct (ReadRESP stream) as [v r1| |] eqn:E; simpl; try reflexivity.
  apply ReadRESP_elements_ge. apply ReadRESP_Ret_length in E.
  unfold ReadRESP_budget. lia.
Qed.

Lemma ReadRESP_loop_Ret_length i : 0 <= i ->
  forall stream arr arr' rest,
    ReadRESP_loop i stream arr = Ret arr' rest ->
    Z.of_nat (length rest) + i <= Z.of_nat (length stream)
    /\ Z.of_nat (length arr') = Z.of_nat (length arr) + i.
Proof.
  intros Hi. pattern i. apply natlike_ind; [| |exact Hi]; clear i Hi.
  - intros stream arr arr' rest. rewrite ReadRESP_loop_unfold. simpl.
    intros H. injection H as <- <-. lia.
  - intros i Hi IH stream arr arr' rest. rewrite ReadRESP_loop_unfold.
    destruct (Z.eqb_spec (Z.succ i) 0) as [E|_]; [lia|].
    destruct (ReadRESP stream) as [v r1| |] eqn:E; simpl; try discriminate.
    replace (Z.succ i - 1) with i by lia.
    intros H. apply IH in H as [H1 H2]. apply ReadRESP_Ret_length in E.
    unfold Array_Add in H2. rewrite length_app in H2. simpl in H2. lia.
Qed.

End Unfolding.

(** ** Decimal digits *)

Section Decimal.

Lemma digit_char_spec d : 0 <= d < 10 ->
  is_digit (digit_char d) = true /\ digit_value (digit_char d) = d.
Proof.
  intros H.
  assert (d = 0 \/ d = 1 \/ d = 2 \/ d = 3 \/ d = 4 \/ d = 5 \/ d = 6
          \/ d = 7 \/ d = 8 \/ d = 9) as E by lia.
  repeat destruct E as [->|E]; try subst d; split; reflexivity.
Qed.

Lemma is_digit_not_special c : is_digit c = true ->
  Ascii.eqb c CR = false /\ Ascii.eqb c "-" = false
  /\ Ascii.eqb c "+" = false.
Proof.
  intros H. repeat split; apply Ascii.eqb_neq; intros ->; discriminate.
Qed.

Lemma int_to_char_app fuel : forall v buf,
  int_to_char fuel v buf = int_to_char fuel v [] ++ buf.
Proof.
  induction fuel as [|fuel IH]; intros v buf; simpl; [reflexivity|].
  destruct (v / 10 =? 0); [reflexivity|].
  rewrite IH. rewrite (IH _ [_]). now rewrite <- app_assoc.
Qed.

Lemma int_to_char_digits fuel : forall v buf,
  0 <= v -> Forall (fun c => is_digit c = true) buf ->
  Forall (fun c => is_digit c = true) (int_to_char fuel v buf).
Proof.
  induction fuel as [|fuel IH]; intros v buf Hv Hbuf; simpl.
  - constructor; [|exact Hbuf].
    apply digit_char_spec. apply Z.mod_pos_bound. lia.
  - assert (Forall (fun c => is_digit c = true)
                   (digit_char (v mod 10) :: buf)) as H.
    { constructor; [|exact Hbuf].
      apply digit_char_spec. apply Z.mod_pos_bound. lia. }
    destruct (v / 10 =? 0); [exact H|].
    apply IH; [apply Z.div_pos; lia|exact H].
Qed.

Lemma int_to_char_nonempty fuel : forall v buf,
  int_to_char fuel v buf <> [].
Proof.
  induction fuel as [|fuel IH]; intros v buf; simpl; [discriminate|].
  destruct (v / 10 =? 0); [discriminate|apply IH].
Qed.

Lemma digits_value_app xs : forall acc ys,
  digits_value acc (xs ++ ys)
  = match digits_value acc xs with
    | Some a => digits_value a ys
    | None => None
    end.
Proof.
  induction xs as [|c xs IH]; intros acc ys; simpl; [reflexivity|].
  destruct (is_digit c); [apply IH|reflexivity].
Qed.

Lemma digits_value_one v : 0 <= v < 10 ->
  digits_value 0 [digit_char (v mod 10)] = Some v.
Proof.
  intros H. rewrite Z.mod_small by lia. simpl.
  destruct (digit_char_spec v H) as [-> ->]. reflexivity.
Qed.

Lemma digits_value_int_to_char fuel : forall v,
  0 <= v < 10 * 2 ^ Z.of_nat fuel ->
  digits_value 0 (int_to_char fuel v []) = Some v.
Proof.
  induction fuel as [|fuel IH]; intros v Hv.
  - simpl in *. apply digits_value_one. lia.
  - cbn [int_to_char]. destruct (Z.eqb_spec (v / 10) 0) as [E|E].
    + apply digits_value_one.
      pose proof (Z.div_mod v 10 ltac:(lia)).
      pose proof (Z.mod_pos_bound v 10 ltac:(lia)). lia.
    + rewrite int_to_char_app, digits_value_app.
      rewrite Nat2Z.inj_succ, Z.pow_succ_r in Hv by lia.
      rewrite IH.
      * cbn [digits_value].
        destruct (digit_char_spec (v mod 10)
                    (Z.mod_pos_bound v 10 ltac:(lia))) as [-> ->].
        f_equal. pose proof (Z.div_mod v 10 ltac:(lia)). lia.
      * split; [apply Z.div_pos; lia|].
        apply Z.div_lt_upper_bound; lia.
Qed.

Lemma ostream_size_t_digits v : 0 <= v ->
  Forall (fun c => is_digit c = true) (ostream_size_t v).
Proof. intros H. apply int_to_char_digits; [exact H|constructor]. Qed.

Lemma ostream_size_t_value v : 0 <= v ->
  digits_value 0 (ostream_size_t v) = Some v.
Proof.
  intros H. apply digits_value_int_to_char.
  rewrite Z2Nat.id by apply Z.log2_nonneg.
  destruct (Z.eq_dec v 0) as [->|Hv]; [simpl; lia|].
  pose proof (Z.log2_spec v ltac:(lia)) as [_ Hs].
  rewrite Z.pow_succ_r in Hs by apply Z.log2_nonneg. lia.
Qed.

Lemma ostream_size_t_no_CR v : 0 <= v -> ~ In CR (ostream_size_t v).
Proof.
  intros H Hin. pose proof (ostream_size_t_digits v H) as Hd.
  rewrite Forall_forall in Hd. apply Hd in Hin. discriminate.
Qed.

Lemma lexical_cast_ostream_size_t v : 0 <= v <= intmax_max ->
  lexical_cast_intmax (ostream_size_t v) = Some v.
Proof.
  intros Hv.
  pose proof (ostream_size_t_digits v ltac:(lia)) as Hd.
  pose proof (ostream_size_t_value v ltac:(lia)) as Hval.
  pose proof (int_to_char_nonempty (Z.to_nat (Z.log2 v)) v []) as Hne.
  fold (ostream_size_t v) in Hne.
  destruct (ostream_size_t v) as [|c s]; [congruence|].
  inversion Hd as [|? ? Hc _]; subst.
  destruct (is_digit_not_special c Hc) as (_ & Hm & Hp).
  unfold lexical_cast_intmax. rewrite Hm, Hp. simpl orb. cbv iota.
  unfold lcast_ret_unsigned. rewrite Hval.
  unfold intmax_max, uintmax_max in *.
  destruct (Z.leb_spec v (2 ^ 64 - 1)); [|lia].
  destruct (Z.leb_spec v (2 ^ 63 - 1)); [reflexivity|lia].
Qed.

End Decimal.

(** ** The cases of [ReadRESP] *)

Section Cases.

Lemma async_read_app p stream :
  async_read (p ++ stream) (Z.of_nat (length p)) = Ret p stream.
Proof.
  unfold async_read. rewrite Nat2Z.id, length_app.
  destruct (Z.leb_spec (Z.of_nat (length p))
              (Z.of_nat (length p + length stream))) as [_|H]; [|lia].
  rewrite firstn_app, skipn_app, Nat.sub_diag, firstn_all, skipn_all.
  simpl. now rewrite app_nil_r.
Qed.

Lemma async_read_short stream n :
  Z.of_nat (length stream) < n ->
  async_read stream n = Throw (system_error eof) [].
Proof.
  intros H. unfold async_read.
  destruct (Z.leb_spec n (Z.of_nat (length stream))); [lia|reflexivity].
Qed.

Lemma ReadLine_Ret line next rest hint :
  ~ In CR line ->
  ReadLine (line ++ CR :: next :: rest) hint = Ret line rest.
Proof. intros H. unfold ReadLine. now rewrite ReadLine_loop_Ret. Qed.

Lemma ReadRESP_error stream :
  ReadRESP ("-"%char :: stream)
  = do buf, stream <- ReadLine stream 0;
    Ret (Obj (ObjRedisError (RedisError.make buf))) stream.
Proof. rewrite ReadRESP_unfold. reflexivity. Qed.

Lemma ReadRESP_bulk stream :
  ReadRESP ("$"%char :: stream)
  = do buf, stream <- ReadLine stream 21;
    do i, stream <- parse_int buf stream;
    if i <? 0 then Ret Empty stream
    else do buf, stream <- async_read stream i;
         do crlf, stream <- async_read stream 2;
         Ret (Str buf) stream.
Proof. rewrite ReadRESP_unfold. reflexivity. Qed.

Lemma ReadRESP_array stream :
  ReadRESP ("*"%char :: stream)
  = do buf, stream <- ReadLine stream 21;
    do i, stream <- parse_int buf stream;
    do arr, stream <- ReadRESP_loop (if i <? 0 then 0 else i) stream [];
    Ret (Obj (ObjArray arr)) stream.
Proof. rewrite ReadRESP_unfold. reflexivity. Qed.

Lemma ReadRESP_bad_int type stream buf rest :
  int_header type = true ->
  ReadLine stream 21 = Ret buf rest ->
  lexical_cast_intmax buf = None ->
  ReadRESP (type :: stream)
  = Throw (ExBadRedisInt (BadRedisInt.make buf)) rest.
Proof.
  intros Ht Hline Hint. rewrite ReadRESP_unfold.
  unfold ReadRESP_body. cbn [async_read_char bind].
  unfold int_header in Ht.
  destruct (Ascii.eqb_spec type "+") as [->|_]; [discriminate|].
  destruct (Ascii.eqb_spec type "-") as [->|_]; [discriminate|].
  rewrite Hline. cbn [bind]. unfold parse_int. rewrite Hint.
  destruct (Ascii.eqb type ":"); [reflexivity|].
  destruct (Ascii.eqb type "$"); [reflexivity|].
  destruct (Ascii.eqb type "*"); [reflexivity|discriminate].
Qed.

Lemma ReadRESP_bulk_payload stream buf payload t1 t2 rest :
  ReadLine stream 21 = Ret buf (payload ++ t1 :: t2 :: rest) ->
  lexical_cast_intmax buf = Some (Z.of_nat (length payload)) ->
  ReadRESP ("$"%char :: stream) = Ret (Str payload) rest.
Proof.
  intros Hline Hint. rewrite ReadRESP_bulk, Hline. cbn [bind].
  unfold parse_int. rewrite Hint. cbn [bind].
  destruct (Z.ltb_spec (Z.of_nat (length payload)) 0); [lia|].
  rewrite async_read_app. cbn [bind].
  change (t1 :: t2 :: rest) with ([t1; t2] ++ rest).
  change 2 with (Z.of_nat (length [t1; t2])).
  rewrite async_read_app. reflexivity.
Qed.

Lemma decodes_loop stream vs rest :
  decodes stream vs rest ->
  forall arr,
    ReadRESP_loop (Z.of_nat (length vs)) stream arr = Ret (arr ++ vs) rest.
Proof.
  induction 1 as [stream|stream v stream' vs rest Hv _ IH]; intros arr.
  - rewrite ReadRESP_loop_unfold. simpl. now rewrite app_nil_r.
  - rewrite ReadRESP_loop_unfold.
    destruct (Z.eqb_spec (Z.of_nat (length (v :: vs))) 0) as [E|_];
      [simpl in E; lia|].
    rewrite Hv. cbn [bind].
    replace (Z.of_nat (length (v :: vs)) - 1) with (Z.of_nat (length vs))
      by (simpl length; lia).
    rewrite IH. unfold Array_Add. now rewrite <- app_assoc.
Qed.

Lemma loop_decodes i : 0 <= i ->
  forall stream arr arr' rest,
    ReadRESP_loop i stream arr = Ret arr' rest ->
    exists vs, arr' = arr ++ vs /\ Z.of_nat (length vs) = i
               /\ decodes stream vs rest.
Proof.
  intros Hi. pattern i. apply natlike_ind; [| |exact Hi]; clear i Hi.
  - intros stream arr arr' rest. rewrite ReadRESP_loop_unfold. simpl.
    intros H. injection H as <- <-. exists [].
    rewrite app_nil_r. repeat split. constructor.
  - intros i Hi IH stream arr arr' rest. rewrite ReadRESP_loop_unfold.
    destruct (Z.eqb_spec (Z.succ i) 0) as [E|_]; [lia|].
    destruct (ReadRESP stream) as [v r1| |] eqn:E; simpl; try discriminate.
    replace (Z.succ i - 1) with i by lia.
    intros H. apply IH in H as (vs & -> & Hlen & Hdec).
    exists (v :: vs). unfold Array_Add. rewrite <- app_assoc.
    repeat split; [simpl length; lia|].
    econstructor; eassumption.
Qed.

Lemma c_str_terminated buf tl :
  ~ In NUL buf -> c_str (buf ++ NUL :: tl) = buf.
Proof.
  induction buf as [|c buf IH]; intros H; simpl; [reflexivity|].
  destruct (Ascii.eqb_spec c NUL) as [->|_].
  - exfalso. apply H. now left.
  - f_equal. apply IH. intros E. apply H. now right.
Qed.

Lemma c_str_prefix buf :
  exists tl, buf = c_str buf ++ tl /\ ~ In NUL (c_str buf)
             /\ (tl = [] \/ exists tl', tl = NUL :: tl').
Proof.
  induction buf as [|c buf (tl & E & Hn & Htl)]; simpl.
  - exists []. auto.
  - destruct (Ascii.eqb_spec c NUL) as [->|Hc].
    + exists (NUL :: buf). repeat split; eauto.
    + exists tl. simpl. repeat split; [congruence| |exact Htl].
      intros [H|H]; [congruence|auto].
Qed.

End Cases.

(** ** [WriteRESP] against the request format *)

Section Requests.

Lemma fold_left_bulks query : forall msg,
  fold_left
    (fun msg arg =>
       msg ++ ["$"%char] ++ ostream_size_t (String_GetLength arg) ++ [CR; LF]
           ++ arg ++ [CR; LF])
    query msg
  = msg ++ concat (map resp_bulk query).
Proof.
  induction query as [|arg query IH]; intros msg; cbn [fold_left map concat].
  - now rewrite app_nil_r.
  - rewrite IH.
    change (resp_bulk arg)
      with (["$"%char] ++ ostream_size_t (String_GetLength arg) ++ [CR; LF]
              ++ arg ++ [CR; LF]).
    rewrite <- !app_assoc. reflexivity.
Qed.

Lemma WriteRESP_buffer_eq query :
  WriteRESP_buffer query = resp_request query.
Proof.
  unfold WriteRESP_buffer, resp_request. rewrite fold_left_bulks.
  unfold CRLF. cbn [app]. rewrite <- !app_assoc. reflexivity.
Qed.

Lemma resp_bulk_app arg rest :
  resp_bulk arg ++ rest
  = "$"%char :: ostream_size_t (Z.of_nat (length arg))
             ++ CR :: LF :: arg ++ CR :: LF :: rest.
Proof.
  unfold resp_bulk, CRLF. cbn [app]. rewrite <- !app_assoc. cbn [app].
  rewrite <- app_assoc. reflexivity.
Qed.

Lemma ReadRESP_resp_bulk arg rest :
  Z.of_nat (length arg) <= intmax_max ->
  ReadRESP (resp_bulk arg ++ rest) = Ret (Str arg) rest.
Proof.
  intros H. rewrite resp_bulk_app.
  apply ReadRESP_bulk_payload
    with (buf := ostream_size_t (Z.of_nat (length arg)))
         (t1 := CR) (t2 := LF).
  - apply ReadLine_Ret. apply ostream_size_t_no_CR. lia.
  - apply lexical_cast_ostream_size_t. lia.
Qed.

Lemma decodes_bulks query rest :
  Forall (fun arg => Z.of_nat (length arg) <= intmax_max) query ->
  decodes (concat (map resp_bulk query) ++ rest) (map Str query) rest.
Proof.
  induction 1 as [|arg query Harg _ IH]; simpl; [constructor|].
  econstructor; [|exact IH].
  rewrite <- app_assoc. now apply ReadRESP_resp_bulk.
Qed.

End Requests.

(** ** The claims *)

(** C1.  Round trip: for a query whose number of arguments and whose
    argument lengths fit [intmax_t] (as every [std::vector] and
    [std::string] does), decoding the bytes [WriteRESP] produced, whatever
    follows them on the stream, returns the array of the arguments as
    strings, in order, and leaves what followed.  The argument bytes are
    arbitrary: NUL, CR and LF included. *)
Theorem RESP_round_trip (query : Query) (rest : list char) :
  Z.of_nat (length query) <= intmax_max ->
  Forall (fun arg => Z.of_nat (length arg) <= intmax_max) query ->
  ReadRESP (WriteRESP_buffer query ++ rest)
  = Ret (Obj (ObjArray (map Str query))) rest.
Proof.
  intros Hn Hargs. rewrite WriteRESP_buffer_eq. unfold resp_request, CRLF.
  cbn [app]. rewrite <- !app_assoc. cbn [app].
  rewrite ReadRESP_array.
  rewrite ReadLine_Ret by (apply ostream_size_t_no_CR; lia). cbn [bind].
  unfold parse_int.
  rewrite lexical_cast_ostream_size_t by lia. cbn [bind].
  destruct (Z.ltb_spec (Z.of_nat (length query)) 0) as [H|_]; [lia|].
  rewrite <- (length_map Str query).
  rewrite (decodes_loop _ _ _ (decodes_bulks query rest Hargs)).
  reflexivity.
Qed.

Lemma RESP_round_trip_witness :
  ReadRESP (WriteRESP_buffer [bytes "SET"; [NUL; CR; LF; "$"%char]; []]
              ++ bytes "+OK")
  = Ret (Obj (ObjArray [Str (bytes "SET"); Str [NUL; CR; LF; "$"%char];
                        Str []]))
        (bytes "+OK").
Proof.
  apply (RESP_round_trip [bytes "SET"; [NUL; CR; LF; "$"%char]; []]).
  - unfold intmax_max. simpl. lia.
  - repeat constructor; unfold intmax_max; simpl; lia.
Defined.

(** C2.  The decoder does not keep to the CR LF terminator that the
    claim states and that the comment of [ReadLine] promises ("Read from
    stream until \r\n", "Read data ex. \r\n"): the line [OK] followed by CR
    and [X] is accepted, as a line and as a simple string, and a bulk string
    is accepted when the two bytes after its payload, read into [crlf], are
    [X] and [Y]. *)
Lemma other_terminators_accepted :
  ReadLine (bytes "OK" ++ [CR; "X"%char]) 0 = Ret (bytes "OK") []
  /\ ReadRESP (bytes "+OK" ++ [CR; "X"%char]) = Ret (Str (bytes "OK")) []
  /\ ReadRESP (bytes "$2" ++ CRLF ++ bytes "abXY") = Ret (Str (bytes "ab")) []
  /\ "X"%char <> LF.
Proof. repeat split; try reflexivity. discriminate. Qed.

(** Where the acceptance above comes from, on every stream: [ReadLine]
    returns exactly when the stream holds a CR and one more byte, the line
    being what precedes the first CR, and the byte after that CR is never
    compared with LF; after a bulk payload, [ReadRESP] takes two bytes
    without comparing them with CR LF. *)
Theorem ReadLine_terminator :
  (forall stream hint line rest,
      ReadLine stream hint = Ret line rest
      <-> exists next, stream = line ++ CR :: next :: rest /\ ~ In CR line)
  /\ (forall stream buf payload t1 t2 rest,
         ReadLine stream 21 = Ret buf (payload ++ t1 :: t2 :: rest) ->
         lexical_cast_intmax buf = Some (Z.of_nat (length payload)) ->
         ReadRESP ("$"%char :: stream) = Ret (Str payload) rest).
Proof.
  split.
  - intros stream hint line rest. split.
    + intros H. apply ReadLine_loop_Ret_inv in H as (l & next & -> & -> & Hl).
      exists next. auto.
    + intros (next & -> & Hl). now apply ReadLine_Ret.
  - intros stream buf payload t1 t2 rest. apply ReadRESP_bulk_payload.
Qed.

Lemma ReadLine_terminator_witness :
  ReadLine (bytes "PONG" ++ CR :: LF :: bytes "+") 0
  = Ret (bytes "PONG") (bytes "+")
  /\ ReadRESP ("$"%char :: bytes "3" ++ CR :: LF :: bytes "abc" ++ CR :: LF :: [])
     = Ret (Str (bytes "abc")) [].
Proof.
  split.
  - apply (proj1 ReadLine_terminator). exists LF. split; [reflexivity|].
    simpl. intros [H|[H|[H|[H|[]]]]]; discriminate.
  - apply (proj2 ReadLine_terminator) with (buf := bytes "3") (t1 := CR)
                                           (t2 := LF); reflexivity.
Defined.

(** C3.  [WriteRESP] writes [*N\r\n] and then, argument by argument,
    [$L\r\n], the argument and [\r\n], and nothing else; [N] and [L] are
    decimal numerals of the number of arguments and of the length. *)
Theorem WriteRESP_request_format (strm : AsyncStream) (query : Query) :
  WriteRESP_buffer query
  = "*"%char :: ostream_size_t (Z.of_nat (length query)) ++ [CR; LF]
             ++ concat (map (fun arg =>
                               "$"%char
                               :: ostream_size_t (Z.of_nat (length arg))
                               ++ [CR; LF] ++ arg ++ [CR; LF]) query)
  /\ WriteRESP strm query = async_write strm (resp_request query)
  /\ Forall (fun n => Forall (fun c => is_digit c = true) (ostream_size_t n)
                      /\ digits_value 0 (ostream_size_t n) = Some n)
            (Z.of_nat (length query)
               :: map (fun arg => Z.of_nat (length arg)) query).
Proof.
  split; [apply WriteRESP_buffer_eq|]. split.
  - unfold WriteRESP. now rewrite WriteRESP_buffer_eq.
  - apply Forall_forall. intros n Hn.
    assert (0 <= n) as H.
    { destruct Hn as [<-|Hn]; [lia|].
      apply in_map_iff in Hn as (arg & <- & _). lia. }
    split; [now apply ostream_size_t_digits|now apply ostream_size_t_value].
Qed.

(** C4.  A bulk string whose header line parses to a negative length
    decodes to the null value and nothing after the header is consumed; for
    a length [L >= 0], the [L] bytes after the header are the string
    returned, and those bytes and two more are consumed.  (When fewer than
    [L + 2] bytes are left, the read ends in [eof].) *)
Theorem ReadRESP_bulk_string (stream buf rest : list char) (i : Z) :
  ReadLine stream 21 = Ret buf rest ->
  lexical_cast_intmax buf = Some i ->
  (i < 0 -> ReadRESP ("$"%char :: stream) = Ret Empty rest)
  /\ (0 <= i ->
      forall payload t1 t2 rest',
        rest = payload ++ t1 :: t2 :: rest' ->
        Z.of_nat (length payload) = i ->
        ReadRESP ("$"%char :: stream) = Ret (Str payload) rest')
  /\ (0 <= i -> Z.of_nat (length rest) < i + 2 ->
      ReadRESP ("$"%char :: stream) = Throw (system_error eof) []).
Proof.
  intros Hline Hint. split; [|split].
  - intros Hi. rewrite ReadRESP_bulk, Hline. cbn [bind].
    unfold parse_int. rewrite Hint. cbn [bind].
    destruct (Z.ltb_spec i 0); [reflexivity|lia].
  - intros Hi payload t1 t2 rest' -> <-.
    now apply ReadRESP_bulk_payload with (buf := buf) (t1 := t1) (t2 := t2).
  - intros Hi Hshort. rewrite ReadRESP_bulk, Hline. cbn [bind].
    unfold parse_int. rewrite Hint. cbn [bind].
    destruct (Z.ltb_spec i 0); [lia|].
    destruct (Z.le_gt_cases i (Z.of_nat (length rest))) as [Hle|Hgt].
    + unfold async_read at 1.
      destruct (Z.leb_spec i (Z.of_nat (length rest))); [|lia]. cbn [bind].
      rewrite async_read_short; [reflexivity|].
      rewrite length_skipn. lia.
    + now rewrite async_read_short by lia.
Qed.

Lemma ReadRESP_bulk_string_witness :
  ReadRESP (bytes "$-1" ++ CRLF) = Ret Empty []
  /\ ReadRESP (bytes "$-1" ++ CRLF ++ bytes "+OK" ++ CRLF)
     = Ret Empty (bytes "+OK" ++ CRLF)
  /\ ReadRESP (bytes "$4" ++ CRLF ++ [CR; LF; NUL; "a"%char] ++ CRLF
                 ++ bytes ":1")
     = Ret (Str [CR; LF; NUL; "a"%char]) (bytes ":1").
Proof.
  split; [|split].
  - destruct (ReadRESP_bulk_string (bytes "-1" ++ CRLF) (bytes "-1") [] (-1))
      as (H & _); [reflexivity|reflexivity|].
    apply H. lia.
  - destruct (ReadRESP_bulk_string
                (bytes "-1" ++ CRLF ++ bytes "+OK" ++ CRLF)
                (bytes "-1") (bytes "+OK" ++ CRLF) (-1))
      as (H & _); [reflexivity|reflexivity|].
    apply H. lia.
  - destruct (ReadRESP_bulk_string
                (bytes "4" ++ CRLF ++ [CR; LF; NUL; "a"%char] ++ CRLF
                   ++ bytes ":1")
                (bytes "4")
                ([CR; LF; NUL; "a"%char] ++ CRLF ++ bytes ":1") 4)
      as (_ & H & _); [reflexivity|reflexivity|].
    apply H with (t1 := CR) (t2 := LF); [lia|reflexivity|reflexivity].
Defined.

(** C5.  An array whose header line parses to a negative count decodes to
    the empty array; for a count [N >= 0], the [N] values that [ReadRESP]
    decodes one after the other from what follows the header are the
    elements of the array returned, in that order.  Whenever an array is
    returned, it was built this way. *)
Theorem ReadRESP_array_reply (stream buf rest : list char) (i : Z) :
  ReadLine stream 21 = Ret buf rest ->
  lexical_cast_intmax buf = Some i ->
  (i < 0 -> ReadRESP ("*"%char :: stream) = Ret (Obj (ObjArray [])) rest)
  /\ (0 <= i ->
      forall vs rest',
        decodes rest vs rest' ->
        Z.of_nat (length vs) = i ->
        ReadRESP ("*"%char :: stream) = Ret (Obj (ObjArray vs)) rest')
  /\ (forall v rest',
        ReadRESP ("*"%char :: stream) = Ret v rest' ->
        exists vs, v = Obj (ObjArray vs)
                   /\ Z.of_nat (length vs) = Z.max 0 i
                   /\ decodes rest vs rest').
Proof.
  intros Hline Hint.
  assert (ReadRESP ("*"%char :: stream)
          = do arr, s <- ReadRESP_loop (Z.max 0 i) rest [];
            Ret (Obj (ObjArray arr)) s) as E.
  { rewrite ReadRESP_array, Hline. cbn [bind].
    unfold parse_int. rewrite Hint. cbn [bind].
    destruct (Z.ltb_spec i 0); [rewrite Z.max_l by lia|rewrite Z.max_r by lia];
      reflexivity. }
  rewrite E. split; [|split].
  - intros Hi. rewrite Z.max_l by lia. rewrite ReadRESP_loop_unfold.
    reflexivity.
  - intros Hi vs rest' Hdec <-. rewrite Z.max_r by lia.
    now rewrite (decodes_loop _ _ _ Hdec).
  - intros v rest'.
    destruct (ReadRESP_loop (Z.max 0 i) rest []) as [arr s| |] eqn:El;
      cbn [bind]; try discriminate.
    intros H. injection H as <- <-.
    apply loop_decodes in El as (vs & -> & Hlen & Hdec); [|lia].
    exists vs. auto.
Qed.

Lemma ReadRESP_array_reply_witness :
  ReadRESP (bytes "*-1" ++ CRLF) = Ret (Obj (ObjArray [])) []
  /\ ReadRESP (bytes "*2" ++ CRLF ++ bytes ":1" ++ CRLF ++ bytes "+b" ++ CRLF)
     = Ret (Obj (ObjArray [Number 1; Str (bytes "b")])) [].
Proof.
  split.
  - destruct (ReadRESP_array_reply (bytes "-1" ++ CRLF) (bytes "-1") [] (-1))
      as (H & _); [reflexivity|reflexivity|].
    apply H. lia.
  - destruct (ReadRESP_array_reply
                (bytes "2" ++ CRLF ++ bytes ":1" ++ CRLF ++ bytes "+b" ++ CRLF)
                (bytes "2") (bytes ":1" ++ CRLF ++ bytes "+b" ++ CRLF) 2)
      as (_ & H & _); [reflexivity|reflexivity|].
    apply H; [lia| |reflexivity].
    apply decodes_cons with (stream' := bytes "+b" ++ CRLF); [reflexivity|].
    apply decodes_cons with (stream' := []); [reflexivity|].
    apply decodes_nil.
Defined.

(** C6, as stated, fails: on an input that begins with [-] and ends
    before the line is complete, [ReadRESP] throws. *)
Lemma ReadRESP_error_truncated :
  ReadRESP (bytes "-ERR") = Throw (system_error eof) []
  /\ ReadRESP (bytes "-ERR" ++ [CR]) = Throw (system_error eof) [].
Proof. split; reflexivity. Qed.

(** C6, amended.  On an input that begins with [-] and goes on with a
    complete line, [ReadRESP] returns (it does not throw) an error value
    whose message, as [GetMessage] gives it, is exactly that line. *)
Theorem ReadRESP_error_reply (stream line rest : list char) :
  ReadLine stream 0 = Ret line rest ->
  exists e,
    ReadRESP ("-"%char :: stream) = Ret (Obj (ObjRedisError e)) rest
    /\ RedisError.GetMessage e = line.
Proof.
  intros Hline. exists (RedisError.make line).
  rewrite ReadRESP_error, Hline. split; reflexivity.
Qed.

Lemma ReadRESP_error_reply_witness :
  exists e,
    ReadRESP (bytes "-ERR wrong type" ++ CRLF)
    = Ret (Obj (ObjRedisError e)) []
    /\ RedisError.GetMessage e = bytes "ERR wrong type".
Proof.
  apply (ReadRESP_error_reply (bytes "ERR wrong type" ++ CRLF)
           (bytes "ERR wrong type") []).
  reflexivity.
Defined.

(** C7, as stated, fails at the type byte NUL: the exception holds the
    byte, but [what()], a C string, is empty and not that single byte. *)
Lemma BadRedisType_what_NUL :
  known_type NUL = false
  /\ ReadRESP [NUL] = Throw (ExBadRedisType (BadRedisType.make NUL)) []
  /\ BadRedisType.what (BadRedisType.make NUL) = []
  /\ BadRedisType.what (BadRedisType.make NUL) <> [NUL].
Proof. repeat split; try reflexivity. discriminate. Qed.

(** C7, amended.  On an input whose first byte is none of [+ - : $ *],
    [ReadRESP] throws [BadRedisType] right after that byte; the exception
    holds exactly that byte and a terminating NUL, and unless the byte is
    NUL, [what()] is that single byte. *)
Theorem ReadRESP_bad_type (type : char) (stream : list char) :
  known_type type = false ->
  ReadRESP (type :: stream)
  = Throw (ExBadRedisType (BadRedisType.make type)) stream
  /\ BadRedisType.m_What (BadRedisType.make type) = [type; NUL]
  /\ (type <> NUL -> BadRedisType.what (BadRedisType.make type) = [type]).
Proof.
  intros Ht. unfold known_type in Ht.
  repeat (apply orb_false_iff in Ht as [Ht ?]).
  split; [|split].
  - rewrite ReadRESP_unfold. unfold ReadRESP_body. cbn [async_read_char bind].
    repeat match goal with H : Ascii.eqb _ _ = false |- _ =>
                             rewrite H; clear H end.
    reflexivity.
  - reflexivity.
  - intros Hn. unfold BadRedisType.what. simpl.
    destruct (Ascii.eqb_spec type NUL); [contradiction|reflexivity].
Qed.

Lemma ReadRESP_bad_type_witness :
  ReadRESP (bytes "?x")
  = Throw (ExBadRedisType (BadRedisType.make "?"%char)) (bytes "x")
  /\ BadRedisType.m_What (BadRedisType.make "?"%char) = ["?"%char; NUL]
  /\ ("?"%char <> NUL ->
      BadRedisType.what (BadRedisType.make "?"%char) = ["?"%char]).
Proof. apply (ReadRESP_bad_type "?"%char (bytes "x")). reflexivity. Defined.

(** C8, as stated, fails on a line that holds a NUL byte: [what()], a C
    string, ends at that byte and is not the whole line. *)
Lemma BadRedisInt_what_NUL :
  ReadRESP (bytes ":1" ++ [NUL] ++ bytes "2" ++ CRLF)
  = Throw (ExBadRedisInt (BadRedisInt.make (bytes "1" ++ [NUL] ++ bytes "2")))
          []
  /\ BadRedisInt.what (BadRedisInt.make (bytes "1" ++ [NUL] ++ bytes "2"))
     = bytes "1"
  /\ BadRedisInt.what (BadRedisInt.make (bytes "1" ++ [NUL] ++ bytes "2"))
     <> bytes "1" ++ [NUL] ++ bytes "2".
Proof. repeat split; try reflexivity. discriminate. Qed.

(** C8, amended.  After a [:], [$] or [*] whose line [lexical_cast]
    rejects, [ReadRESP] throws [BadRedisInt]; the exception holds exactly
    the bytes of the line and a terminating NUL; [what()] is the line up to
    its first NUL byte, hence the whole line when the line has none. *)
Theorem ReadRESP_bad_integer (type : char) (stream buf rest : list char) :
  int_header type = true ->
  ReadLine stream 21 = Ret buf rest ->
  lexical_cast_intmax buf = None ->
  ReadRESP (type :: stream)
  = Throw (ExBadRedisInt (BadRedisInt.make buf)) rest
  /\ BadRedisInt.m_What (BadRedisInt.make buf) = buf ++ [NUL]
  /\ (exists tl,
         buf = BadRedisInt.what (BadRedisInt.make buf) ++ tl
         /\ ~ In NUL (BadRedisInt.what (BadRedisInt.make buf))
         /\ (tl = [] \/ exists tl', tl = NUL :: tl'))
  /\ (~ In NUL buf -> BadRedisInt.what (BadRedisInt.make buf) = buf).
Proof.
  intros Ht Hline Hint. split; [now apply ReadRESP_bad_int|].
  split; [reflexivity|].
  assert (forall l, c_str (l ++ [NUL]) = c_str l) as Hc.
  { induction l as [|c l IH]; simpl; [reflexivity|].
    destruct (Ascii.eqb c NUL); [reflexivity|now rewrite IH]. }
  unfold BadRedisInt.what, BadRedisInt.make. cbn [BadRedisInt.m_What].
  rewrite Hc. split; [apply c_str_prefix|].
  intros Hn. rewrite <- (app_nil_r buf) at 1. rewrite <- Hc, <- app_assoc.
  now apply c_str_terminated.
Qed.

Lemma ReadRESP_bad_integer_witness :
  ReadRESP (bytes "$12x" ++ CRLF ++ bytes "rest")
  = Throw (ExBadRedisInt (BadRedisInt.make (bytes "12x"))) (bytes "rest")
  /\ BadRedisInt.what (BadRedisInt.make (bytes "12x")) = bytes "12x".
Proof.
  destruct (ReadRESP_bad_integer "$"%char (bytes "12x" ++ CRLF ++ bytes "rest")
              (bytes "12x") (bytes "rest"))
    as (H1 & _ & _ & H4); [reflexivity|reflexivity|reflexivity|].
  split; [exact H1|]. apply H4.
  simpl. intros [H|[H|[H|[]]]]; discriminate.
Defined.

(** C9.  With no stream established (the stream pointer is null),
    [ReadOne] and [WriteOne] throw [RedisDisconnected] and leave the
    connection as it was: flags, queues, suppression set, stream pointer,
    and no coroutine spawned; there is no stream any byte could have been
    read from or written to. *)
Theorem Disconnected_without_stream (this : RedisConnection) (query : Query) :
  stream this = None ->
  ReadOne this = Throw RedisDisconnected this
  /\ WriteOne this query = Throw RedisDisconnected this.
Proof.
  intros H. unfold ReadOne, WriteOne. rewrite H. split; reflexivity.
Qed.

Lemma Disconnected_without_stream_witness :
  let this :=
    {| m_Connecting := true; m_Connected := false; m_Started := true;
       m_Queues :=
         {| Writes := [(State,
                        [{| FireAndForgetQuery := Some [bytes "PING"];
                            FireAndForgetQueries := None;
                            GetResultOfQuery := None;
                            GetResultsOfQueries := None;
                            Callback := None |}])];
            ReplyPromises := [1%nat];
            RepliesPromises := [];
            FutureResponseActions :=
              [{| Amount := 1; Action := Deliver |}] |};
       m_SuppressedQueryKinds := [Config];
       stream := None;
       spawned := [] |} in
  ReadOne this = Throw RedisDisconnected this
  /\ WriteOne this [bytes "PING"] = Throw RedisDisconnected this.
Proof.
  intros this. apply (Disconnected_without_stream this [bytes "PING"]).
  reflexivity.
Defined.

(** C10.  [ReadRESP] terminates on every finite stream: its budget, a
    function of the length of the stream, is never exhausted, and any larger
    budget gives the same outcome.  The reason is that every call that
    returns has consumed at least one byte, so a loop of [i] decodes has
    consumed at least [i] bytes; [ReadLine] recurses on the bytes of the
    stream and returns or throws. *)
Theorem ReadRESP_terminates (stream : list char) :
  ReadRESP stream <> OutOfFuel
  /\ (forall fuel, (ReadRESP_budget stream <= fuel)%nat ->
                   ReadRESP_fuel fuel stream = ReadRESP stream)
  /\ (forall v rest, ReadRESP stream = Ret v rest ->
                     (length rest < length stream)%nat)
  /\ (forall i arr arr' rest,
         0 <= i -> ReadRESP_loop i stream arr = Ret arr' rest ->
         Z.of_nat (length rest) + i <= Z.of_nat (length stream))
  /\ (forall i arr, ReadRESP_loop i stream arr <> OutOfFuel)
  /\ (forall hint, ReadLine stream hint <> OutOfFuel)
  /\ (forall hint line rest, ReadLine stream hint = Ret line rest ->
                             (length rest < length stream)%nat).
Proof.
  split; [|split; [|split; [|split; [|split; [|split]]]]].
  - apply (proj1 (ReadRESP_fuel_enough _)). unfold ReadRESP_budget. lia.
  - intros fuel. apply ReadRESP_fuel_ge.
  - intros v rest. apply ReadRESP_Ret_length.
  - intros i arr arr' rest Hi H.
    now apply (ReadRESP_loop_Ret_length i Hi) in H.
  - intros i arr. apply (proj2 (ReadRESP_fuel_enough _)).
    unfold ReadRESP_budget. lia.
  - intros hint. apply ReadLine_loop_fuel.
  - intros hint line rest H. apply ReadLine_Ret_length in H. lia.
Qed.

Lemma ReadRESP_terminates_witness :
  ReadRESP_fuel 1000 (bytes "*2" ++ CRLF ++ bytes "$1" ++ CRLF ++ bytes "a")
  = ReadRESP (bytes "*2" ++ CRLF ++ bytes "$1" ++ CRLF ++ bytes "a")
  /\ ReadRESP (bytes "*2" ++ CRLF ++ bytes "$1" ++ CRLF ++ bytes "a")
     <> OutOfFuel.
Proof.
  destruct (ReadRESP_terminates
              (bytes "*2" ++ CRLF ++ bytes "$1" ++ CRLF ++ bytes "a"))
    as (H1 & H2 & _).
  split; [|exact H1]. apply H2. vm_compute. lia.
Defined.

(** ** Framing: a reply is decoded from a prefix of the stream *)

Section Framing.

Lemma framed_Ret {A} (a : A) : framed (fun s => Ret a s).
Proof. intros s a' rest H. injection H as <- <-. exists []. auto. Qed.

Lemma framed_bind {A B} (f : list char -> outcome (list char) A)
      (g : A -> list char -> outcome (list char) B) :
  framed f -> (forall a, framed (g a)) -> framed (fun s => bind (f s) g).
Proof.
  intros Hf Hg s b rest H.
  destruct (f s) as [a s1| |] eqn:Ef; cbn [bind] in H; try discriminate.
  destruct (Hf _ _ _ Ef) as (c1 & -> & H1).
  destruct (Hg a _ _ _ H) as (c2 & -> & H2).
  exists (c1 ++ c2). split; [now rewrite app_assoc|].
  intros t. rewrite <- app_assoc, H1. cbn [bind]. apply H2.
Qed.

Lemma framed_async_read_char : framed async_read_char.
Proof.
  intros [|c s] a rest H; simpl in H; [discriminate|].
  injection H as <- <-. exists [c]. auto.
Qed.

Lemma framed_ReadLine hint : framed (fun s => ReadLine s hint).
Proof.
  intros s line rest H.
  apply ReadLine_loop_Ret_inv in H as (l & next & -> & -> & Hl).
  exists (l ++ [CR; next]). split; [now rewrite <- app_assoc|].
  intros t. rewrite <- app_assoc. cbn [app]. now apply ReadLine_Ret.
Qed.

Lemma framed_async_read n : framed (fun s => async_read s n).
Proof.
  intros s buf rest H. unfold async_read in H.
  destruct (Z.leb_spec n (Z.of_nat (length s))) as [Hn|]; [|discriminate].
  injection H as <- <-.
  assert (Z.to_nat n <= length s)%nat as Hk by lia.
  exists (firstn (Z.to_nat n) s). split; [now rewrite firstn_skipn|].
  intros t. unfold async_read.
  assert (length (firstn (Z.to_nat n) s) = Z.to_nat n) as Hlen
    by (rewrite length_firstn; lia).
  rewrite length_app, Hlen.
  destruct (Z.leb_spec n (Z.of_nat (Z.to_nat n + length t))); [|lia].
  rewrite firstn_app, skipn_app, Hlen, Nat.sub_diag.
  rewrite <- Hlen at 1 3. rewrite firstn_all, skipn_all.
  simpl. now rewrite app_nil_r.
Qed.

Lemma framed_parse_int buf : framed (parse_int buf).
Proof.
  intros s i rest H. unfold parse_int in *.
  destruct (lexical_cast_intmax buf); [|discriminate].
  injection H as <- <-. exists []. auto.
Qed.

Lemma framed_ReadRESP_body loop :
  (forall i arr, framed (fun s => loop i s arr)) ->
  framed (ReadRESP_body loop).
Proof.
  intros Hloop. unfold ReadRESP_body.
  apply framed_bind; [apply framed_async_read_char|]. intros type.
  destruct (Ascii.eqb type "+").
  { apply framed_bind; [apply framed_ReadLine|]. intros buf.
    apply framed_Ret. }
  destruct (Ascii.eqb type "-").
  { apply framed_bind; [apply framed_ReadLine|]. intros buf.
    apply framed_Ret. }
  destruct (Ascii.eqb type ":").
  { apply framed_bind; [apply framed_ReadLine|]. intros buf.
    apply framed_bind; [apply framed_parse_int|]. intros i.
    apply framed_Ret. }
  destruct (Ascii.eqb type "$").
  { apply framed_bind; [apply framed_ReadLine|]. intros buf.
    apply framed_bind; [apply framed_parse_int|]. intros i.
    destruct (i <? 0); [apply framed_Ret|].
    apply framed_bind; [apply framed_async_read|]. intros payload.
    apply framed_bind; [apply framed_async_read|]. intros crlf.
    apply framed_Ret. }
  destruct (Ascii.eqb type "*").
  { apply framed_bind; [apply framed_ReadLine|]. intros buf.
    apply framed_bind; [apply framed_parse_int|]. intros i. cbn zeta.
    apply framed_bind; [apply Hloop|]. intros arr.
    apply framed_Ret. }
  intros s a rest H. discriminate.
Qed.

Lemma framed_ReadRESP_fuel fuel :
  framed (ReadRESP_fuel fuel)
  /\ (forall i arr, framed (fun s => ReadRESP_elements fuel i s arr)).
Proof.
  induction fuel as [|fuel [IHr IHe]]; split.
  - intros s a rest H. discriminate.
  - intros i arr s a rest. simpl. destruct (i =? 0); [|discriminate].
    apply (framed_Ret arr).
  - apply framed_ReadRESP_body. exact IHe.
  - intros i arr. simpl. destruct (i =? 0); [apply framed_Ret|].
    apply framed_bind; [exact IHr|]. intros v. apply IHe.
Qed.

End Framing.

(** ** What [ReadRESP] throws *)

Section Failures.

Lemma throws_only_Ret {A} (a : A) : throws_only (fun s => Ret a s).
Proof. intros s e rest H. discriminate. Qed.

Lemma throws_only_bind {A B} (f : list char -> outcome (list char) A)
      (g : A -> list char -> outcome (list char) B) :
  throws_only f -> (forall a, throws_only (g a)) ->
  throws_only (fun s => bind (f s) g).
Proof.
  intros Hf Hg s e rest H.
  destruct (f s) as [a s1|e1 s1|] eqn:Ef; cbn [bind] in H; try discriminate.
  - exact (Hg a _ _ _ H).
  - injection H as <- <-. exact (Hf _ _ _ Ef).
Qed.

Lemma throws_only_async_read_char : throws_only async_read_char.
Proof.
  intros [|c s] e rest H; simpl in H; [|discriminate].
  injection H as <- <-. left. auto.
Qed.

Lemma throws_only_ReadLine hint : throws_only (fun s => ReadLine s hint).
Proof.
  intros s e rest H. apply ReadLine_loop_Throw_inv in H. now left.
Qed.

Lemma throws_only_async_read n : throws_only (fun s => async_read s n).
Proof.
  intros s e rest H. unfold async_read in H.
  destruct (n <=? _); [discriminate|]. injection H as <- <-. left. auto.
Qed.

Lemma throws_only_parse_int buf : throws_only (parse_int buf).
Proof.
  intros s e rest H. unfold parse_int in H.
  destruct (lexical_cast_intmax buf) eqn:E; [discriminate|].
  injection H as <- <-. right. right. eauto.
Qed.

Lemma throws_only_ReadRESP_body loop :
  (forall i arr, throws_only (fun s => loop i s arr)) ->
  throws_only (ReadRESP_body loop).
Proof.
  intros Hloop. unfold ReadRESP_body.
  apply throws_only_bind; [apply throws_only_async_read_char|]. intros type.
  destruct (Ascii.eqb type "+") eqn:E1.
  { apply throws_only_bind; [apply throws_only_ReadLine|]. intros buf.
    apply throws_only_Ret. }
  destruct (Ascii.eqb type "-") eqn:E2.
  { apply throws_only_bind; [apply throws_only_ReadLine|]. intros buf.
    apply throws_only_Ret. }
  destruct (Ascii.eqb type ":") eqn:E3.
  { apply throws_only_bind; [apply throws_only_ReadLine|]. intros buf.
    apply throws_only_bind; [apply throws_only_parse_int|]. intros i.
    apply throws_only_Ret. }
  destruct (Ascii.eqb type "$") eqn:E4.
  { apply throws_only_bind; [apply throws_only_ReadLine|]. intros buf.
    apply throws_only_bind; [apply throws_only_parse_int|]. intros i.
    destruct (i <? 0); [apply throws_only_Ret|].
    apply throws_only_bind; [apply throws_only_async_read|]. intros payload.
    apply throws_only_bind; [apply throws_only_async_read|]. intros crlf.
    apply throws_only_Ret. }
  destruct (Ascii.eqb type "*") eqn:E5.
  { apply throws_only_bind; [apply throws_only_ReadLine|]. intros buf.
    apply throws_only_bind; [apply throws_only_parse_int|]. intros i.
    cbn zeta.
    apply throws_only_bind; [apply Hloop|]. intros arr.
    apply throws_only_Ret. }
  intros s e rest H. injection H as <- <-. right. left. exists type.
  split; [|reflexivity]. unfold known_type. now rewrite E1, E2, E3, E4, E5.
Qed.

Lemma throws_only_ReadRESP_fuel fuel :
  throws_only (ReadRESP_fuel fuel)
  /\ (forall i arr, throws_only (fun s => ReadRESP_elements fuel i s arr)).
Proof.
  induction fuel as [|fuel [IHr IHe]]; split.
  - intros s e rest H. discriminate.
  - intros i arr s e rest. simpl. destruct (i =? 0); discriminate.
  - apply throws_only_ReadRESP_body. exact IHe.
  - intros i arr. simpl. destruct (i =? 0); [apply throws_only_Ret|].
    apply throws_only_bind; [exact IHr|]. intros v. apply IHe.
Qed.

Lemma decodes_then_throws stream vs stream' :
  decodes stream vs stream' ->
  forall e rest i arr,
    ReadRESP stream' = Throw e rest ->
    Z.of_nat (length vs) < i ->
    ReadRESP_loop i stream arr = Throw e rest.
Proof.
  induction 1 as [stream|stream v s1 vs s2 Hv _ IH];
    intros e rest i arr Hthrow Hi; rewrite ReadRESP_loop_unfold.
  - destruct (Z.eqb_spec i 0) as [->|_]; [simpl in Hi; lia|].
    now rewrite Hthrow.
  - destruct (Z.eqb_spec i 0) as [->|_]; [simpl length in Hi; lia|].
    rewrite Hv. cbn [bind]. apply IH; [exact Hthrow|].
    simpl length in Hi. lia.
Qed.

Lemma ReadRESP_resp_request (query : Query) (rest : list char) :
  Z.of_nat (length query) <= intmax_max ->
  Forall (fun arg => Z.of_nat (length arg) <= intmax_max) query ->
  ReadRESP (resp_request query ++ rest)
  = Ret (Obj (ObjArray (map Str query))) rest.
Proof.
  intros Hn Hargs. unfold resp_request, CRLF.
  cbn [app]. rewrite <- !app_assoc. cbn [app].
  rewrite ReadRESP_array.
  rewrite ReadLine_Ret by (apply ostream_size_t_no_CR; lia). cbn [bind].
  unfold parse_int.
  rewrite lexical_cast_ostream_size_t by lia. cbn [bind].
  destruct (Z.ltb_spec (Z.of_nat (length query)) 0) as [H|_]; [lia|].
  rewrite <- (length_map Str query).
  now rewrite (decodes_loop _ _ _ (decodes_bulks query rest Hargs)).
Qed.

End Failures.

(** ** Further properties of the decoder *)

Section Numbers.

Lemma digits_value_nonneg l : forall acc w,
  0 <= acc -> digits_value acc l = Some w -> 0 <= w.
Proof.
  induction l as [|d l IH]; intros acc w Hacc; cbn [digits_value].
  - intros H. injection H as <-. exact Hacc.
  - destruct (is_digit d) eqn:Ed; [|discriminate].
    apply IH. unfold is_digit in Ed. unfold digit_value.
    apply andb_prop in Ed as [E1 _]. apply N.leb_le in E1. lia.
Qed.

Lemma lcast_ret_unsigned_nonneg s v :
  lcast_ret_unsigned s = Some v -> 0 <= v.
Proof.
  unfold lcast_ret_unsigned. destruct s as [|c s]; [discriminate|].
  destruct (digits_value 0 (c :: s)) as [w|] eqn:Ew; [|discriminate].
  apply digits_value_nonneg in Ew; [|lia].
  destruct (w <=? uintmax_max); [|discriminate].
  intros H. injection H as <-. exact Ew.
Qed.

Lemma lexical_cast_intmax_range s i :
  lexical_cast_intmax s = Some i -> - 2 ^ 63 <= i <= 2 ^ 63 - 1.
Proof.
  unfold lexical_cast_intmax. destruct s as [|c s]; [discriminate|].
  destruct (lcast_ret_unsigned _) as [v|] eqn:Ev; [|discriminate].
  apply lcast_ret_unsigned_nonneg in Ev.
  unfold intmax_max.
  destruct (Ascii.eqb c "-").
  - destruct (Z.leb_spec v (2 ^ 63)); [|discriminate].
    intros E. injection E as <-. lia.
  - destruct (Z.leb_spec v (2 ^ 63 - 1)); [|discriminate].
    intros E. injection E as <-. lia.
Qed.

Lemma double_of_intmax_small i :
  Z.abs i <= 2 ^ 53 -> double_of_intmax i = i.
Proof.
  intros H. unfold double_of_intmax.
  destruct (Z.ltb_spec (Z.abs i) (2 ^ 53)) as [_|Hge]; [reflexivity|].
  assert (i = 2 ^ 53 \/ i = - 2 ^ 53) as [-> | ->] by lia; reflexivity.
Qed.

Lemma double_of_intmax_error i :
  Z.abs (double_of_intmax i - i) * 2 ^ 53 <= Z.abs i.
Proof.
  unfold double_of_intmax.
  destruct (Z.ltb_spec (Z.abs i) (2 ^ 53)) as [_|Hge].
  { rewrite Z.sub_diag. simpl Z.abs. lia. }
  set (a := Z.abs i) in *.
  assert (0 < a) as Ha by lia.
  assert (53 <= Z.log2 a) as Hlog.
  { change 53 with (Z.log2 (2 ^ 53)). now apply Z.log2_le_mono. }
  set (e := Z.log2 a - 52).
  assert (1 <= e) as He by (unfold e; lia).
  rewrite Z.shiftr_div_pow2 by lia.
  rewrite !Z.shiftl_mul_pow2 by lia.
  set (h := 2 ^ (e - 1)).
  assert (0 < h) as Hh by (apply Z.pow_pos_nonneg; lia).
  assert (2 ^ e = 2 * h) as HP.
  { unfold h. rewrite <- Z.pow_succ_r by lia. f_equal. lia. }
  assert (h * 2 ^ 53 <= a) as Hbound.
  { unfold h. rewrite <- Z.pow_add_r by lia.
    replace (e - 1 + 53) with (Z.log2 a) by (unfold e; lia).
    apply Z.log2_spec. exact Ha. }
  rewrite HP, Z.mul_1_l.
  pose proof (Z.div_mod a (2 * h) ltac:(lia)) as Hdm.
  pose proof (Z.mod_pos_bound a (2 * h) ltac:(lia)) as Hr.
  set (q := a / (2 * h)) in *. set (r := a mod (2 * h)) in *.
  replace (a - q * (2 * h)) with r by lia.
  assert (Z.abs ((if (h <? r) || (r =? h) && Z.odd q then q + 1 else q)
                   * (2 * h) - a) <= h) as Hq.
  { destruct (Z.ltb_spec h r); cbn [orb].
    - rewrite Z.abs_eq by nia. nia.
    - destruct (Z.eqb_spec r h); cbn [andb].
      + destruct (Z.odd q).
        * rewrite Z.abs_eq by nia. nia.
        * rewrite Z.abs_neq by nia. nia.
      + rewrite Z.abs_neq by nia. nia. }
  set (q' := if (h <? r) || (r =? h) && Z.odd q then q + 1 else q) in *.
  assert (Z.abs (Z.sgn i * (q' * (2 * h)) - i) = Z.abs (q' * (2 * h) - a))
    as ->.
  { unfold a. destruct (Z.abs_spec i) as [[Hi ->]|[Hi ->]].
    - rewrite Z.sgn_pos by lia. f_equal. lia.
    - rewrite Z.sgn_neg by lia.
      rewrite <- (Z.abs_opp (q' * (2 * h) - - i)). f_equal. lia. }
  nia.
Qed.

End Numbers.

(** X1.  A reply that starts with [+] decodes to a string exactly when a
    CR and one more byte follow: the string is what stands before the first
    CR, so it never holds a CR. *)
Theorem ReadRESP_simple_string_reply (stream : list char) (v : Value)
        (rest : list char) :
  ReadRESP ("+"%char :: stream) = Ret v rest
  <-> exists line next,
        stream = line ++ CR :: next :: rest /\ ~ In CR line /\ v = Str line.
Proof.
  assert (ReadRESP ("+"%char :: stream)
          = do buf, s <- ReadLine stream 0; Ret (Str buf) s) as ->
    by (rewrite ReadRESP_unfold; reflexivity).
  split.
  - destruct (ReadLine stream 0) as [buf s| |] eqn:E; cbn [bind];
      try discriminate.
    intros H. injection H as <- <-.
    apply ReadLine_loop_Ret_inv in E as (l & next & -> & -> & Hl).
    exists l, next. auto.
  - intros (line & next & -> & Hl & ->). now rewrite ReadLine_Ret.
Qed.

Lemma ReadRESP_simple_string_reply_witness :
  ReadRESP ("+"%char :: bytes "PONG" ++ CR :: LF :: bytes "+next")
  = Ret (Str (bytes "PONG")) (bytes "+next").
Proof.
  apply (proj2 (ReadRESP_simple_string_reply _ _ _)).
  exists (bytes "PONG"), LF. split; [reflexivity|]. split; [|reflexivity].
  simpl. intros [H|[H|[H|[H|[]]]]]; discriminate.
Defined.

(** X2.  An integer reply whose line parses to [i] is returned as the
    number [(double)i]: [i] lies in the range of [intmax_t], the number is
    [i] itself up to magnitude [2^53], and beyond that it differs from [i]
    by at most [|i| / 2^53]. *)
Theorem ReadRESP_integer_reply (stream buf rest : list char) (i : Z) :
  ReadLine stream 21 = Ret buf rest ->
  lexical_cast_intmax buf = Some i ->
  exists d,
    ReadRESP (":"%char :: stream) = Ret (Number d) rest
    /\ - 2 ^ 63 <= i <= 2 ^ 63 - 1
    /\ (Z.abs i <= 2 ^ 53 -> d = i)
    /\ Z.abs (d - i) * 2 ^ 53 <= Z.abs i.
Proof.
  intros Hline Hint. exists (double_of_intmax i). split; [|split; [|split]].
  - rewrite ReadRESP_unfold. unfold ReadRESP_body.
    cbn [async_read_char bind]. change (Ascii.eqb ":" "+") with false.
    change (Ascii.eqb ":" "-") with false. change (Ascii.eqb ":" ":") with true.
    cbv iota. rewrite Hline. cbn [bind]. unfold parse_int. now rewrite Hint.
  - now apply lexical_cast_intmax_range with (s := buf).
  - apply double_of_intmax_small.
  - apply double_of_intmax_error.
Qed.

Lemma ReadRESP_integer_reply_witness :
  exists d,
    ReadRESP (bytes ":-42" ++ CRLF) = Ret (Number d) []
    /\ - 2 ^ 63 <= -42 <= 2 ^ 63 - 1
    /\ (Z.abs (-42) <= 2 ^ 53 -> d = -42)
    /\ Z.abs (d - -42) * 2 ^ 53 <= Z.abs (-42).
Proof.
  apply (ReadRESP_integer_reply (bytes "-42" ++ CRLF) (bytes "-42") [] (-42));
    reflexivity.
Defined.

(** X3.  A reply is decoded from a prefix of the stream: when [ReadRESP]
    returns, what it leaves is the stream without a non-empty prefix, and on
    that prefix followed by any other bytes it returns the same value and
    leaves those bytes. *)
Theorem ReadRESP_framed (stream : list char) (v : Value) (rest : list char) :
  ReadRESP stream = Ret v rest ->
  exists consumed,
    stream = consumed ++ rest /\ consumed <> []
    /\ forall t, ReadRESP (consumed ++ t) = Ret v t.
Proof.
  intros H.
  destruct (proj1 (framed_ReadRESP_fuel _) _ _ _ H) as (c & -> & _).
  exists c. split; [reflexivity|]. split.
  - intros ->. apply ReadRESP_Ret_length in H. simpl in H. lia.
  - intros t.
    set (fuel := Nat.max (ReadRESP_budget (c ++ rest))
                         (ReadRESP_budget (c ++ t))).
    assert (ReadRESP_fuel fuel (c ++ rest) = Ret v rest) as Hf.
    { rewrite ReadRESP_fuel_ge; [exact H|]. unfold fuel. lia. }
    destruct (proj1 (framed_ReadRESP_fuel fuel) _ _ _ Hf) as (c' & Ec & Hc').
    apply app_inv_tail in Ec. subst c'.
    rewrite <- (ReadRESP_fuel_ge (c ++ t) fuel); [apply Hc'|].
    unfold fuel. lia.
Qed.

Lemma ReadRESP_framed_witness :
  exists consumed,
    bytes "$2" ++ CRLF ++ bytes "ab" ++ CRLF ++ bytes ":1"
    = consumed ++ bytes ":1"
    /\ consumed <> []
    /\ forall t, ReadRESP (consumed ++ t) = Ret (Str (bytes "ab")) t.
Proof.
  apply (ReadRESP_framed
           (bytes "$2" ++ CRLF ++ bytes "ab" ++ CRLF ++ bytes ":1")
           (Str (bytes "ab")) (bytes ":1")).
  reflexivity.
Defined.



(** X5.  An array has no partial result: when fewer elements than the
    declared count decode and the next one throws, [ReadRESP] on the array
    throws that same exception and leaves the stream where the element left
    it. *)
Theorem ReadRESP_array_element_throws
        (stream buf rest : list char) (i : Z) (vs : list Value)
        (stream' : list char) (e : exn) (rest' : list char) :
  ReadLine stream 21 = Ret buf rest ->
  lexical_cast_intmax buf = Some i ->
  decodes rest vs stream' ->
  Z.of_nat (length vs) < i ->
  ReadRESP stream' = Throw e rest' ->
  ReadRESP ("*"%char :: stream) = Throw e rest'.
Proof.
  intros Hline Hint Hdec Hlt Hthrow.
  rewrite ReadRESP_array, Hline. cbn [bind].
  unfold parse_int. rewrite Hint. cbn [bind].
  destruct (Z.ltb_spec i 0); [lia|].
  now rewrite (decodes_then_throws _ _ _ Hdec e rest' i []).
Qed.

Lemma ReadRESP_array_element_throws_witness :
  ReadRESP (bytes "*3" ++ CRLF ++ bytes ":1" ++ CRLF ++ bytes "?" )
  = Throw (ExBadRedisType (BadRedisType.make "?"%char)) [].
Proof.
  apply (ReadRESP_array_element_throws
           (bytes "3" ++ CRLF ++ bytes ":1" ++ CRLF ++ bytes "?")
           (bytes "3") (bytes ":1" ++ CRLF ++ bytes "?") 3
           [Number 1] (bytes "?"));
    try reflexivity.
  apply decodes_cons with (stream' := bytes "?"); [reflexivity|].
  apply decodes_nil.
Defined.

(** ** Requests on the wire *)

(** X6.  Requests written back to back stay apart: the bytes of several
    queries, one [WriteRESP] after the other, decode reply by reply to the
    arrays of their arguments, in the order written, and what follows is
    left on the stream. *)
Theorem pipelined_requests_decode (queries : Queries) (rest : list char) :
  Forall Query_fits queries ->
  decodes (concat (map WriteRESP_buffer queries) ++ rest)
          (map (fun query => Obj (ObjArray (map Str query))) queries)
          rest.
Proof.
  induction 1 as [|query queries [Hn Hargs] _ IH]; simpl; [constructor|].
  econstructor; [|exact IH].
  rewrite <- app_assoc, WriteRESP_buffer_eq.
  now apply ReadRESP_resp_request.
Qed.

Lemma pipelined_requests_decode_witness :
  decodes (concat (map WriteRESP_buffer
                       [[bytes "SET"; bytes "k"; [CR; LF]]; [bytes "PING"]])
             ++ bytes "+")
          [Obj (ObjArray [Str (bytes "SET"); Str (bytes "k"); Str [CR; LF]]);
           Obj (ObjArray [Str (bytes "PING")])]
          (bytes "+").
Proof.
  apply (pipelined_requests_decode
           [[bytes "SET"; bytes "k"; [CR; LF]]; [bytes "PING"]] (bytes "+")).
  repeat constructor; unfold intmax_max; simpl; lia.
Defined.

(** X7.  The request encoding is unambiguous: two queries whose bytes,
    each followed by anything, make the same stream are the same query
    followed by the same bytes.  In particular different queries never have
    the same encoding, and no encoding is a proper prefix of another. *)
Theorem WriteRESP_buffer_prefix_free (q1 q2 : Query) (r1 r2 : list char) :
  Query_fits q1 -> Query_fits q2 ->
  WriteRESP_buffer q1 ++ r1 = WriteRESP_buffer q2 ++ r2 ->
  q1 = q2 /\ r1 = r2.
Proof.
  intros [Hn1 Ha1] [Hn2 Ha2] E.
  pose proof (ReadRESP_resp_request q1 r1 Hn1 Ha1) as H1.
  pose proof (ReadRESP_resp_request q2 r2 Hn2 Ha2) as H2.
  rewrite <- !WriteRESP_buffer_eq in *. rewrite E, H2 in H1.
  injection H1 as Hq Hr. split; [|now symmetry].
  clear - Hq. revert q1 Hq.
  induction q2 as [|a q2 IH]; intros [|b q1] Hq; simpl in Hq;
    try discriminate; [reflexivity|].
  injection Hq as -> Hq. f_equal. now apply IH.
Qed.

Lemma WriteRESP_buffer_prefix_free_witness :
  [bytes "GET"; bytes "a"] = [bytes "GET"; bytes "a"]
  /\ bytes "*1" = bytes "*1".
Proof.
  apply (WriteRESP_buffer_prefix_free [bytes "GET"; bytes "a"]
                                      [bytes "GET"; bytes "a"]
                                      (bytes "*1") (bytes "*1"));
    [split; [unfold intmax_max; simpl; lia
            |repeat constructor; unfold intmax_max; simpl; lia]..
    |reflexivity].
Defined.

(** ** [ReadLine] at the end of the stream *)

Section ReadLine_failure.

Lemma ReadLine_loop_no_CR stream : forall line,
  ~ In CR stream -> ReadLine_loop stream line = Throw (system_error eof) [].
Proof.
  induction stream as [|c stream IH]; intros line H; simpl; [reflexivity|].
  destruct (Ascii.eqb_spec c CR) as [->|_].
  - exfalso. apply H. now left.
  - apply IH. intros E. apply H. now right.
Qed.

Lemma ReadLine_loop_last_CR l : forall line,
  ~ In CR l ->
  ReadLine_loop (l ++ [CR]) line = Throw (system_error eof) [].
Proof.
  induction l as [|c l IH]; intros line H; simpl; [reflexivity|].
  destruct (Ascii.eqb_spec c CR) as [->|_].
  - exfalso. apply H. now left.
  - apply IH. intros E. apply H. now right.
Qed.

Lemma ReadLine_loop_Throw_shape stream : forall line e rest,
  ReadLine_loop stream line = Throw e rest ->
  ~ In CR stream \/ exists l, stream = l ++ [CR] /\ ~ In CR l.
Proof.
  induction stream as [|c stream IH]; intros line e rest H; simpl in H.
  - left. intros [].
  - destruct (Ascii.eqb_spec c CR) as [->|Hc].
    + destruct stream; [|discriminate]. right. exists []. auto.
    + apply IH in H as [H|(l & -> & Hl)].
      * left. intros [E|E]; [congruence|auto].
      * right. exists (c :: l). split; [reflexivity|].
        intros [E|E]; [congruence|auto].
Qed.

End ReadLine_failure.

(** X8.  [ReadLine] fails exactly when the stream has no CR, or has its
    first CR as its last byte; the failure is the end of the stream, and the
    stream is used up. *)
Theorem ReadLine_fails_iff (stream : list char) (hint : Z) (e : exn)
        (rest : list char) :
  ReadLine stream hint = Throw e rest
  <-> e = system_error eof /\ rest = []
      /\ (~ In CR stream \/ exists l, stream = l ++ [CR] /\ ~ In CR l).
Proof.
  unfold ReadLine. split.
  - intros H. destruct (ReadLine_loop_Throw_inv _ _ _ _ H) as [-> ->].
    apply ReadLine_loop_Throw_shape in H. auto.
  - intros (-> & -> & [H|(l & -> & Hl)]).
    + now apply ReadLine_loop_no_CR.
    + now apply ReadLine_loop_last_CR.
Qed.

Lemma ReadLine_fails_iff_witness :
  ReadLine (bytes "OK" ++ [CR]) 0 = Throw (system_error eof) [].
Proof.
  apply (proj2 (ReadLine_fails_iff _ _ _ _)).
  split; [reflexivity|]. split; [reflexivity|].
  right. exists (bytes "OK"). split; [reflexivity|].
  simpl. intros [H|[H|[]]]; discriminate.
Defined.

(** ** [ReadOne] and [WriteOne] on the connection *)

(** X9.  Whatever [ReadOne] and [WriteOne] do, they leave the queues, the
    suppression set, [m_Started] and [m_Connecting] as they were; they never
    set [m_Connected], never establish a stream where there was none, and
    spawn at most one [Connect] coroutine. *)
Theorem ReadOne_WriteOne_frame (this this' : RedisConnection)
        (query : Query) :
  final_state (ReadOne this) = Some this'
  \/ final_state (WriteOne this query) = Some this' ->
  m_Queues this' = m_Queues this
  /\ m_SuppressedQueryKinds this' = m_SuppressedQueryKinds this
  /\ m_Started this' = m_Started this
  /\ m_Connecting this' = m_Connecting this
  /\ (m_Connected this' = true -> m_Connected this = true)
  /\ (stream this = None -> stream this' = None)
  /\ (spawned this' = spawned this
      \/ spawned this' = spawned this ++ [Connect]).
Proof.
  assert (forall this0,
             m_Queues (on_exception this0) = m_Queues this0
             /\ m_SuppressedQueryKinds (on_exception this0)
                = m_SuppressedQueryKinds this0
             /\ m_Started (on_exception this0) = m_Started this0
             /\ m_Connecting (on_exception this0) = m_Connecting this0
             /\ (m_Connected (on_exception this0) = true ->
                 m_Connected this0 = true)
             /\ (spawned (on_exception this0) = spawned this0
                 \/ spawned (on_exception this0) = spawned this0 ++ [Connect]))
    as Hex.
  { intros this0. unfold on_exception, Connecting_exchange.
    destruct this0 as [[|] cd st q sup p sp]; simpl; intuition discriminate. }
  unfold ReadOne, WriteOne.
  destruct (stream this) as [strm|] eqn:Es.
  - intros [H|H].
    + destruct (ReadRESP (incoming strm)) as [v r|e r|]; simpl in H;
        try discriminate; injection H as <-.
      * simpl. intuition discriminate.
      * destruct (Hex (set_stream this (Some (with_incoming strm r))))
          as (H1 & H2 & H3 & H4 & H5 & H6).
        fold (with_incoming strm r).
        rewrite H1, H2, H3, H4. simpl. intuition discriminate.
    + destruct (do _u, s <- WriteRESP strm query; async_flush s)
        as [u s|e s|]; simpl in H; try discriminate; injection H as <-.
      * simpl. intuition discriminate.
      * destruct (Hex (set_stream this (Some s)))
          as (H1 & H2 & H3 & H4 & H5 & H6).
        rewrite H1, H2, H3, H4. simpl. intuition discriminate.
  - intros [H|H]; simpl in H; injection H as <-; rewrite Es; intuition.
Qed.

Lemma ReadOne_WriteOne_frame_witness :
  let this :=
    {| m_Connecting := true; m_Connected := true; m_Started := true;
       m_Queues := {| Writes := []; ReplyPromises := [7%nat];
                      RepliesPromises := [];
                      FutureResponseActions :=
                        [{| Amount := 1; Action := Deliver |}] |};
       m_SuppressedQueryKinds := [History];
       stream := Some {| incoming := bytes ":x" ++ CRLF; writeBuf := [];
                         sent := []; peerGone := false |};
       spawned := [] |} in
  let this' :=
    {| m_Connecting := true; m_Connected := false; m_Started := true;
       m_Queues := m_Queues this;
       m_SuppressedQueryKinds := [History];
       stream := None;
       spawned := [Connect] |} in
  m_Queues this' = m_Queues this
  /\ m_SuppressedQueryKinds this' = m_SuppressedQueryKinds this
  /\ m_Started this' = m_Started this
  /\ m_Connecting this' = m_Connecting this
  /\ (m_Connected this' = true -> m_Connected this = true)
  /\ (stream this = None -> stream this' = None)
  /\ (spawned this' = spawned this
      \/ spawned this' = spawned this ++ [Connect]).
Proof.
  intros this this'.
  apply (ReadOne_WriteOne_frame this this' []).
  left. reflexivity.
Defined.



(** X11.  On an established stream whose peer takes data, [WriteOne]
    returns, and what has been sent to the peer is then what had been sent
    before, what was waiting in the write buffer, and the request, in this
    order; the write buffer is empty, the bytes still to be read are
    untouched, and the flags, queues and coroutines are as before. *)
Theorem WriteOne_sends (this : RedisConnection) (strm : AsyncStream)
        (query : Query) :
  stream this = Some strm ->
  peerGone strm = false ->
  WriteOne this query
  = Ret tt (set_stream this
              (Some {| incoming := incoming strm;
                       writeBuf := [];
                       sent := sent strm ++ writeBuf strm
                                 ++ resp_request query;
                       peerGone := false |})).
Proof.
  intros Hs Hp. unfold WriteOne. rewrite Hs.
  unfold WriteRESP, async_write. rewrite Hp. cbn [bind].
  unfold async_flush. cbn [peerGone writeBuf sent incoming].
  now rewrite WriteRESP_buffer_eq.
Qed.

Lemma WriteOne_sends_witness :
  let strm := {| incoming := bytes "+OK"; writeBuf := bytes "tail";
                 sent := bytes "head"; peerGone := false |} in
  let this :=
    {| m_Connecting := false; m_Connected := true; m_Started := true;
       m_Queues := {| Writes := []; ReplyPromises := [];
                      RepliesPromises := []; FutureResponseActions := [] |};
       m_SuppressedQueryKinds := [];
       stream := Some strm;
       spawned := [] |} in
  WriteOne this [bytes "PING"]
  = Ret tt (set_stream this
              (Some {| incoming := bytes "+OK";
                       writeBuf := [];
                       sent := bytes "head" ++ bytes "tail"
                                 ++ resp_request [bytes "PING"];
                       peerGone := false |})).
Proof.
  intros strm this.
  apply (WriteOne_sends this strm [bytes "PING"]); reflexivity.
Defined.

(** X12.  Replies that arrive one after the other are handed out in
    order: when repeated decoding of the unread bytes gives the values [vs]
    and leaves [rest], that many calls of [ReadOne] return [vs] one by one,
    and the connection is then as it was, but for the unread bytes, which
    are [rest]. *)
Theorem ReadOne_pipelined (this : RedisConnection) (strm : AsyncStream)
        (vs : list Value) (rest : list char) :
  stream this = Some strm ->
  decodes (incoming strm) vs rest ->
  ReadOne_run this vs (set_stream this (Some (with_incoming strm rest))).
Proof.
  intros Hs Hdec. remember (incoming strm) as s eqn:Ei.
  revert this strm Hs Ei.
  induction Hdec as [s|s v s1 vs rest Hv _ IH]; intros this strm Hs Ei.
  - subst s. destruct this, strm. simpl in Hs. subst. constructor.
  - apply ReadOne_run_cons
      with (this' := set_stream this (Some (with_incoming strm s1))).
    + unfold ReadOne. rewrite Hs, <- Ei, Hv. reflexivity.
    + exact (IH (set_stream this (Some (with_incoming strm s1)))
                (with_incoming strm s1) eq_refl eq_refl).
Qed.

Lemma ReadOne_pipelined_witness :
  let strm := {| incoming := bytes "+OK" ++ CRLF ++ bytes ":2" ++ CRLF
                               ++ bytes "$";
                 writeBuf := []; sent := []; peerGone := false |} in
  let this :=
    {| m_Connecting := false; m_Connected := true; m_Started := true;
       m_Queues := {| Writes := []; ReplyPromises := [];
                      RepliesPromises := []; FutureResponseActions := [] |};
       m_SuppressedQueryKinds := [];
       stream := Some strm;
       spawned := [] |} in
  ReadOne_run this [Str (bytes "OK"); Number 2]
              (set_stream this (Some (with_incoming strm (bytes "$")))).
Proof.
  intros strm this.
  apply (ReadOne_pipelined this strm [Str (bytes "OK"); Number 2] (bytes "$"));
    [reflexivity|].
  apply decodes_cons with (stream' := bytes ":2" ++ CRLF ++ bytes "$");
    [reflexivity|].
  apply decodes_cons with (stream' := bytes "$"); [reflexivity|].
  apply decodes_nil.
Defined.

(** ** Truncated replies *)

Section Truncation.

Lemma framed_extend {A} (f : list char -> outcome (list char) A) s a rest :
  framed f -> f s = Ret a rest -> forall t, f (s ++ t) = Ret a (rest ++ t).
Proof.
  intros Hf H t. destruct (Hf _ _ _ H) as (c & -> & Hc).
  rewrite <- app_assoc. apply Hc.
Qed.

Lemma stable_failure_eof_only {A} (f : list char -> outcome (list char) A) :
  (forall s e rest, f s = Throw e rest -> e = system_error eof) ->
  stable_failure f.
Proof. intros Hf s e rest H Hne. apply Hf in H. contradiction. Qed.

Lemma stable_failure_Ret {A} (a : A) : stable_failure (fun s => Ret a s).
Proof. intros s e rest H. discriminate. Qed.

Lemma stable_failure_bind {A B} (f : list char -> outcome (list char) A)
      (g : A -> list char -> outcome (list char) B) :
  framed f -> stable_failure f -> (forall a, stable_failure (g a)) ->
  stable_failure (fun s => bind (f s) g).
Proof.
  intros Hfr Hf Hg s e rest H Hne t.
  destruct (f s) as [a s1|e1 s1|] eqn:Ef; cbn [bind] in H; try discriminate.
  - rewrite (framed_extend f s a s1 Hfr Ef). cbn [bind]. now apply Hg.
  - injection H as <- <-. now rewrite (Hf _ _ _ Ef Hne).
Qed.

Lemma stable_failure_async_read_char : stable_failure async_read_char.
Proof.
  apply stable_failure_eof_only. intros [|c s] e rest H; simpl in H.
  - now injection H as <- _.
  - discriminate.
Qed.

Lemma stable_failure_ReadLine hint :
  stable_failure (fun s => ReadLine s hint).
Proof.
  apply stable_failure_eof_only. intros s e rest H.
  now apply ReadLine_loop_Throw_inv in H.
Qed.

Lemma stable_failure_async_read n :
  stable_failure (fun s => async_read s n).
Proof.
  apply stable_failure_eof_only. intros s e rest H. unfold async_read in H.
  destruct (n <=? _); [discriminate|]. now injection H as <- _.
Qed.

Lemma stable_failure_parse_int buf : stable_failure (parse_int buf).
Proof.
  intros s e rest H _ t. unfold parse_int in *.
  destruct (lexical_cast_intmax buf); [discriminate|].
  now injection H as <- <-.
Qed.

Lemma stable_failure_ReadRESP_body loop :
  (forall i arr, framed (fun s => loop i s arr)) ->
  (forall i arr, stable_failure (fun s => loop i s arr)) ->
  stable_failure (ReadRESP_body loop).
Proof.
  intros Hfr Hloop. unfold ReadRESP_body.
  apply stable_failure_bind;
    [apply framed_async_read_char|apply stable_failure_async_read_char|].
  intros type.
  destruct (Ascii.eqb type "+").
  { apply stable_failure_bind;
      [apply framed_ReadLine|apply stable_failure_ReadLine|].
    intros buf. apply stable_failure_Ret. }
  destruct (Ascii.eqb type "-").
  { apply stable_failure_bind;
      [apply framed_ReadLine|apply stable_failure_ReadLine|].
    intros buf. apply stable_failure_Ret. }
  destruct (Ascii.eqb type ":").
  { apply stable_failure_bind;
      [apply framed_ReadLine|apply stable_failure_ReadLine|].
    intros buf.
    apply stable_failure_bind;
      [apply framed_parse_int|apply stable_failure_parse_int|].
    intros i. apply stable_failure_Ret. }
  destruct (Ascii.eqb type "$").
  { apply stable_failure_bind;
      [apply framed_ReadLine|apply stable_failure_ReadLine|].
    intros buf.
    apply stable_failure_bind;
      [apply framed_parse_int|apply stable_failure_parse_int|].
    intros i. destruct (i <? 0); [apply stable_failure_Ret|].
    apply stable_failure_bind;
      [apply framed_async_read|apply stable_failure_async_read|].
    intros payload.
    apply stable_failure_bind;
      [apply framed_async_read|apply stable_failure_async_read|].
    intros crlf. apply stable_failure_Ret. }
  destruct (Ascii.eqb type "*").
  { apply stable_failure_bind;
      [apply framed_ReadLine|apply stable_failure_ReadLine|].
    intros buf.
    apply stable_failure_bind;
      [apply framed_parse_int|apply stable_failure_parse_int|].
    intros i. cbn zeta.
    apply stable_failure_bind; [apply Hfr|apply Hloop|].
    intros arr. apply stable_failure_Ret. }
  intros s e rest H _ t. now injection H as <- <-.
Qed.

Lemma stable_failure_ReadRESP_fuel fuel :
  stable_failure (ReadRESP_fuel fuel)
  /\ (forall i arr, stable_failure (fun s => ReadRESP_elements fuel i s arr)).
Proof.
  induction fuel as [|fuel [IHr IHe]]; split.
  - intros s e rest H. discriminate.
  - intros i arr s e rest. simpl. destruct (i =? 0); discriminate.
  - apply stable_failure_ReadRESP_body;
      [apply (proj2 (framed_ReadRESP_fuel fuel))|exact IHe].
  - intros i arr. simpl. destruct (i =? 0); [apply stable_failure_Ret|].
    apply stable_failure_bind;
      [apply (proj1 (framed_ReadRESP_fuel fuel))|exact IHr|].
    intros v. apply IHe.
Qed.

Lemma ReadRESP_extend stream v rest t :
  ReadRESP stream = Ret v rest ->
  ReadRESP (stream ++ t) = Ret v (rest ++ t).
Proof.
  intros H. set (fuel := ReadRESP_budget (stream ++ t)).
  assert (ReadRESP_fuel fuel stream = Ret v rest) as Hf.
  { rewrite ReadRESP_fuel_ge; [exact H|].
    unfold fuel, ReadRESP_budget. rewrite length_app. lia. }
  exact (framed_extend _ _ _ _ (proj1 (framed_ReadRESP_fuel fuel)) Hf t).
Qed.

Lemma ReadRESP_failure_extend stream e rest t :
  ReadRESP stream = Throw e rest -> e <> system_error eof ->
  ReadRESP (stream ++ t) = Throw e (rest ++ t).
Proof.
  intros H Hne. set (fuel := ReadRESP_budget (stream ++ t)).
  assert (ReadRESP_fuel fuel stream = Throw e rest) as Hf.
  { rewrite ReadRESP_fuel_ge; [exact H|].
    unfold fuel, ReadRESP_budget. rewrite length_app. lia. }
  exact (proj1 (stable_failure_ReadRESP_fuel fuel) _ _ _ Hf Hne t).
Qed.

End Truncation.

(** X13.  A reply cut short only ever ends in the end of the stream: on
    a proper prefix of the bytes a reply is decoded from, [ReadRESP] neither
    returns a value nor reports a protocol error; it throws [eof] with the
    stream used up. *)
Theorem ReadRESP_truncated (stream : list char) (v : Value)
        (rest prefix cut : list char) :
  ReadRESP stream = Ret v rest ->
  stream = prefix ++ cut ++ rest ->
  cut <> [] ->
  ReadRESP prefix = Throw (system_error eof) [].
Proof.
  intros H -> Hcut.
  destruct (ReadRESP prefix) as [v' r'|e r|] eqn:Ep.
  - apply ReadRESP_extend with (t := cut ++ rest) in Ep.
    rewrite Ep in H. injection H as _ Hr.
    apply (f_equal (@length char)) in Hr. rewrite !length_app in Hr.
    destruct cut; [contradiction|simpl in Hr; lia].
  - pose proof (proj1 (throws_only_ReadRESP_fuel _) _ _ _ Ep)
      as [[-> ->]|Hproto]; [reflexivity|].
    assert (e <> system_error eof) as Hne
      by (destruct Hproto as [(t0 & _ & ->)|(b & _ & ->)]; discriminate).
    rewrite (ReadRESP_failure_extend _ _ _ (cut ++ rest) Ep Hne) in H.
    discriminate.
  - exfalso. revert Ep. apply (proj1 (ReadRESP_fuel_enough _)).
    unfold ReadRESP_budget. lia.
Qed.

Lemma ReadRESP_truncated_witness :
  ReadRESP (bytes "*2" ++ CRLF ++ bytes "$3" ++ CRLF ++ bytes "ab")
  = Throw (system_error eof) [].
Proof.
  apply (ReadRESP_truncated
           (bytes "*2" ++ CRLF ++ bytes "$3" ++ CRLF ++ bytes "abc" ++ CRLF
              ++ bytes ":1" ++ CRLF ++ bytes "+next")
           (Obj (ObjArray [Str (bytes "abc"); Number 1]))
           (bytes "+next")
           (bytes "*2" ++ CRLF ++ bytes "$3" ++ CRLF ++ bytes "ab")
           (bytes "c" ++ CRLF ++ bytes ":1" ++ CRLF));
    [reflexivity|reflexivity|discriminate].
Defined.
